(** * TriMesh and PCAModel

    A shallow embedding of [menpo/shape/mesh/base.py] (class [TriMesh]) and
    [pybug/model/pca.py] (class [PCAModel]).

    - numpy [float64] scalars are read as real numbers ([R]): the theorems
      below are about the exact arithmetic the code denotes, not about
      rounding;
    - a 1-D array is a [list], a 2-D array the [list] of its rows;
    - a Python exception is the [Raise] case of [result];
    - an attribute assignment on [self] is state passing on a record, and
      where aliasing matters ([TriMesh.from_mask]) objects live in a
      store addressed by locations. *)

From Stdlib Require Import Reals Lra Lia.
From stdpp Require Import base list sorting.

(** ** Exceptions *)

Inductive exn := ValueError | IndexError | TypeError.

Inductive result (A : Type) :=
| Ok (a : A)
| Raise (e : exn).
Arguments Ok {A} a.
Arguments Raise {A} e.

(** ** Vectors of reals *)

Module Vec.
Local Open Scope R_scope.

Definition vsum (v : list R) : R := foldr Rplus 0 v.

(** [ndarray.mean()].  numpy answers NaN for an empty array; NaN is not a
    real number, and the theorems about means are stated for slices that
    are not empty. *)
Definition mean (v : list R) : R := vsum v / INR (length v).

Definition dot (u v : list R) : R := vsum (zip_with Rmult u v).

(** [u - v] on two rows of equal length *)
Definition vsub (u v : list R) : list R := zip_with Rminus u v.

(** [v / d] for a scalar [d] *)
Definition vdiv (d : R) (v : list R) : list R := map (λ x, x / d) v.

(** column [j] of a matrix given by its rows *)
Definition col (j : nat) (m : list (list R)) : list R :=
  map (λ row, nth j row 0) m.
End Vec.

(** ** pybug/model/pca.py *)

Module PCA.
Import Vec.
Local Open Scope R_scope.

(** The attributes of a [PCAModel] instance.  [_components] and the two
    counts belong to the base class, [_eigenvalues] to [PCAModel]. *)
Record PCAModel := mkPCA {
  _components : list (list R);
  n_components : nat;
  n_available_components : nat;
  _eigenvalues : list R;
  mean_vector : list R
}.

(** Modelled from the spec: the base class [MeanInstanceLinearModel]
    (pybug/model/base.py) is not part of the sources.  Its constructor
    stores the components and the mean; all of them are active and
    available. *)
Definition MeanInstanceLinearModel_init
    (components : list (list R)) (mean : list R) (eigenvalues : list R)
    : PCAModel :=
  {| _components := components;
     n_components := length components;
     n_available_components := length components;
     _eigenvalues := eigenvalues;
     mean_vector := mean |}.

(** Modelled from the spec: the base class property [components]; only
    the prefix of length [n_components] is exposed. *)
Definition components (self : PCAModel) : list (list R) :=
  take (n_components self) (_components self).

(** Modelled from the spec: the base class method [trim_components].
    Reducing [n_components] to [k] discards the components
    [[k, n_available_components)]; a [k] larger than the available count
    is a domain error; [None] re-trims to the current [n_components];
    the available count stays the original one. *)
Definition MeanInstanceLinearModel_trim_components
    (n : option nat) (self : PCAModel) : result PCAModel :=
  let k := default (n_components self) n in
  if (n_available_components self <? k)%nat then Raise ValueError
  else Ok {| _components := take k (_components self);
             n_components := k;
             n_available_components := n_available_components self;
             _eigenvalues := _eigenvalues self;
             mean_vector := mean_vector self |}.

Section Init.
(** [pybug.decomposition.principal_component_decomposition], an
    external numerical primitive: data matrix, [center], [bias] to
    (eigenvectors, eigenvalues, mean vector). *)
Variable principal_component_decomposition :
  list (list R) → bool → bool → list (list R) * list R * list R.

(** [PCAModel.__init__]; a sample is given by its [as_vector()]. *)
Definition PCAModel_init (samples : list (list R)) (center bias : bool)
    : result PCAModel :=
  match samples with
  | [] => Raise IndexError
  | _ :: _ =>
      let data := samples in
      let '(eigenvectors, eigenvalues, mean_vector) :=
        principal_component_decomposition data center bias in
      Ok (MeanInstanceLinearModel_init eigenvectors mean_vector eigenvalues)
  end.
End Init.

(** [PCAModel.eigenvalues] *)
Definition eigenvalues (self : PCAModel) : list R :=
  take (n_components self) (_eigenvalues self).

(** [PCAModel.noise_variance] *)
Definition noise_variance (self : PCAModel) : R :=
  if (n_components self =? n_available_components self)%nat then 0
  else mean (drop (n_components self) (_eigenvalues self)).

(** [PCAModel.inverse_noise_variance] *)
Definition inverse_noise_variance (self : PCAModel) : result R :=
  let noise_variance := noise_variance self in
  if Req_dec_T noise_variance 0 then Raise ValueError
  else Ok (1 / noise_variance).

(** [a / d[:, None]] for a matrix [a] of shape (n, f) and a vector [d]
    of shape (k,): numpy broadcasts (n, f) against (k, 1), which needs
    [n = k], or one of them to be 1. *)
Definition div_column (a : list (list R)) (d : list R)
    : result (list (list R)) :=
  match a, d with
  | _, [d0] => Ok (map (vdiv d0) a)
  | [row], _ => Ok (map (λ di, vdiv di row) d)
  | _, _ =>
      if (length a =? length d)%nat
      then Ok (zip_with (λ row di, vdiv di row) a d)
      else Raise ValueError
  end.

(** [PCAModel.whitened_components] *)
Definition whitened_components (self : PCAModel) : result (list (list R)) :=
  div_column (components self)
    (map sqrt (map (λ e, e + noise_variance self) (eigenvalues self))).

(** [PCAModel.trim_components] *)
Definition trim_components (n : option nat) (self : PCAModel)
    : result PCAModel :=
  match MeanInstanceLinearModel_trim_components n self with
  | Raise e => Raise e
  | Ok self =>
      Ok {| _components := _components self;
            n_components := n_components self;
            n_available_components := n_available_components self;
            _eigenvalues :=
              take (n_available_components self) (_eigenvalues self);
            mean_vector := mean_vector self |}
  end.

(** The two [dgemm] calls of [project_whitened_vector].  The first one
    multiplies the row vector [x] (1, f) by the transpose of the (k, f)
    matrix [w]; the second one multiplies the (1, k) weights by [w].
    BLAS refuses operands whose inner dimensions differ. *)
Definition dgemm_x_wT (x : list R) (w : list (list R)) : result (list R) :=
  if forallb (λ row, length row =? length x)%nat w
  then Ok (map (dot x) w)
  else Raise ValueError.

Definition dgemm_weights_w (n_features : nat) (weights : list R)
    (w : list (list R)) : list R :=
  map (λ j, dot weights (col j w)) (seq 0 n_features).

(** [PCAModel.project_whitened_vector]; the (1, f) array it returns is
    given by its only row. *)
Definition project_whitened_vector (self : PCAModel)
    (vector_instance : list R) : result (list R) :=
  match whitened_components self with
  | Raise e => Raise e
  | Ok whitened_components =>
      match dgemm_x_wT vector_instance whitened_components with
      | Raise e => Raise e
      | Ok weights =>
          Ok (dgemm_weights_w (length vector_instance) weights
                whitened_components)
      end
  end.

(** *** Words of the specification about the model *)

(** A model whose stored eigenvalues are exactly as many as the available
    components: what [__init__] establishes when the decomposition returns
    one eigenvalue per eigenvector. *)
Definition parallel (self : PCAModel) : Prop :=
  length (_eigenvalues self) = n_available_components self.

(** The shapes [project_whitened_vector] relies on: one eigenvalue per
    retained component, and components as long as the vector. *)
Definition shaped (self : PCAModel) (x : list R) : Prop :=
  length (components self) = length (eigenvalues self) ∧
  Forall (λ c, length c = length x) (components self).

(** The retained components are orthonormal, and [x] is a combination of
    them with coefficients [a]. *)
Definition orthonormal (cs : list (list R)) : Prop :=
  ∀ i j ci cj, cs !! i = Some ci → cs !! j = Some cj →
    dot ci cj = if decide (i = j) then 1 else 0.
Definition in_span (self : PCAModel) (x : list R) : Prop :=
  ∃ a, length a = length (components self) ∧
       x = dgemm_weights_w (length x) a (components self).

(** Modelled from the spec: the unwhitened reconstruction of the base
    class (pybug/model/base.py, not part of the sources) projects onto the
    retained components and reconstructs from them:
    the sum of [(x . c_i) c_i]. *)
Definition reconstruction (self : PCAModel) (x : list R) : list R :=
  dgemm_weights_w (length x) (map (dot x) (components self)) (components self).

(** The sum of [((x . c_i) / (eigenvalue_i + noise_variance)) c_i]: the
    reconstruction above with every coefficient divided by the whitening
    denominator squared. *)
Definition scaled_reconstruction (self : PCAModel) (x : list R) : list R :=
  dgemm_weights_w (length x)
    (zip_with (λ c e, dot x c / (e + noise_variance self))
       (components self) (eigenvalues self))
    (components self).
End PCA.

(** ** Objects, references and the store

    numpy arrays and [TriMesh] instances are mutable objects reached through
    references.  A store is the list of the objects allocated so far, a
    location is a position in it, and a method is a function from stores to
    an outcome and a store: when an exception is raised the store is still
    there, with whatever was written before. *)

Module Store.
Abbreviation loc := nat.

Inductive obj :=
| NdFloat (n_cols : nat) (rows : list (list R)) (* (n, n_cols) floats *)
| NdInt3 (rows : list (nat * nat * nat))        (* (n, 3) integers *)
| NdBool (items : list bool)                    (* (n,) booleans *)
| TriMeshObj (points trilist : loc).            (* a TriMesh instance *)

Abbreviation store := (list obj).

Definition M (A : Type) : Type := store → result A * store.

#[global] Instance M_ret : MRet M := λ A a h, (Ok a, h).
#[global] Instance M_bind : MBind M := λ A B f m h,
  match m h with
  | (Ok a, h') => f a h'
  | (Raise e, h') => (Raise e, h')
  end.

Definition raise {A} (e : exn) : M A := λ h, (Raise e, h).

(** a new object gets the next free location *)
Definition alloc (o : obj) : M loc := λ h, (Ok (length h), h ++ [o]).

Definition load (l : loc) : M obj := λ h,
  match h !! l with
  | Some o => (Ok o, h)
  | None => (Raise TypeError, h)
  end.

Definition store_at (l : loc) (o : obj) : M unit := λ h, (Ok (), <[l:=o]> h).

(** reading an object as what the code expects it to be *)
Definition load_float (l : loc) : M (nat * list (list R)) :=
  o ← load l;
  match o with NdFloat n rows => mret (n, rows) | _ => raise TypeError end.
Definition load_int3 (l : loc) : M (list (nat * nat * nat)) :=
  o ← load l;
  match o with NdInt3 rows => mret rows | _ => raise TypeError end.
Definition load_bool (l : loc) : M (list bool) :=
  o ← load l;
  match o with NdBool items => mret items | _ => raise TypeError end.
Definition load_mesh (l : loc) : M (loc * loc) :=
  o ← load l;
  match o with TriMeshObj p t => mret (p, t) | _ => raise TypeError end.
End Store.

(** ** menpo/shape/mesh/base.py *)

Module Mesh.
Import Vec Store.

(** A row of the (M, 3) integer array [trilist], and a row of an (M, 2)
    array of edges.  Indices are naturals: negative (wrap-around) indices
    are outside the model. *)
Abbreviation tri := (nat * nat * nat)%type.
Abbreviation edge := (nat * nat)%type.

Definition verts (t : tri) : list nat := let '(a, b, c) := t in [a; b; c].

(** [adjacency_array.flatten()] *)
Definition flatten (tl : list tri) : list nat := concat (map verts tl).

(** The state of a [TriMesh]: [points] is an (n_points, n_dims) array. *)
Record TriMesh := mkTriMesh {
  points : list (list R);
  n_dims : nat;
  trilist : list tri
}.

Definition n_points (self : TriMesh) : nat := length (points self).

(** [TriMesh.n_tris] *)
Definition n_tris (self : TriMesh) : nat := length (trilist self).

(** *** Edges *)

(** [tl[:, [i, j]]] for the three column pairs the code uses *)
Definition cols01 (tl : list tri) : list edge := map (λ '(a, b, c), (a, b)) tl.
Definition cols12 (tl : list tri) : list edge := map (λ '(a, b, c), (b, c)) tl.
Definition cols20 (tl : list tri) : list edge := map (λ '(a, b, c), (c, a)) tl.
Definition cols02 (tl : list tri) : list edge := map (λ '(a, b, c), (a, c)) tl.

(** [np.sort] on an (M, 2) array sorts every row. *)
Definition sort_row (e : edge) : edge :=
  let '(a, b) := e in if (a <=? b)%nat then (a, b) else (b, a).
Definition np_sort (es : list edge) : list edge := map sort_row es.

(** [TriMesh.edge_indices] *)
Definition edge_indices (self : TriMesh) : list edge :=
  let tl := trilist self in
  cols01 tl ++ cols12 tl ++ cols20 tl.

(** [np.unique(view, return_index=True)[1]]: for every distinct row the
    index of its first occurrence.  numpy lists them in the order of the
    rows' raw bytes, which the method documents as arbitrary; here they
    come in ascending order. *)
Definition first_occurrence (es : list edge) (i : nat) : bool :=
  match es !! i with
  | Some e => bool_decide (e ∉ take i es)
  | None => false
  end.
Definition unique_index (es : list edge) : list nat :=
  filter (λ i, first_occurrence es i) (seq 0 (length es)).

(** [edge_pairs[idx]] for an integer index array [idx]; the indices the
    code passes are positions of [edge_pairs]. *)
Definition rows_at (edge_pairs : list edge) (idx : list nat) : list edge :=
  omap (λ i, edge_pairs !! i) idx.

(** [TriMesh.unique_edge_indicies] *)
Definition unique_edge_indicies (self : TriMesh) : list edge :=
  let edge_pairs := np_sort (edge_indices self) in
  let unique_edge_index := unique_index edge_pairs in
  rows_at edge_pairs unique_edge_index.

(** *** Boundary triangles *)

(** [edges.index(e)]: position of the first occurrence *)
Fixpoint index (e : edge) (edges : list edge) : option nat :=
  match edges with
  | [] => None
  | x :: edges => if decide (x = e) then Some 0%nat else S <$> index e edges
  end.

(** [Counter(edges).items()]: every distinct edge with its number of
    occurrences (the order of the items plays no role below). *)
Definition count (e : edge) (edges : list edge) : nat :=
  length (filter (λ x, x = e) edges).
Definition Counter_items (edges : list edge) : list (edge * nat) :=
  map (λ e, (e, count e edges)) (remove_dups edges).

(** [TriMesh.boundary_tri_index].  [edges.index(e)] cannot fail, since
    [e] is a key of [Counter(edges)].  The array is built from a Python
    [set], so the order of its entries is unspecified. *)
Definition boundary_tri_index (self : TriMesh) : list nat :=
  let trilist := trilist self in
  let edge_pairs := np_sort (cols01 trilist ++ cols02 trilist ++ cols12 trilist) in
  let edges := edge_pairs in
  let mesh_edges :=
    map fst (filter (λ ei, snd ei = 1%nat) (Counter_items edges)) in
  remove_dups
    (omap (λ e, (λ p, p mod length trilist)%nat <$> index e edges) mesh_edges).

(** *** Words of the specification about edges *)

(** The three edges of a triangle as unordered pairs, and the edges of a
    whole triangle list, triangle by triangle. *)
Definition tri_edges (t : tri) : list edge :=
  let '(a, b, c) := t in [sort_row (a, b); sort_row (a, c); sort_row (b, c)].
Definition all_edges (tl : list tri) : list edge := concat (map tri_edges tl).

(** A row of the triangle list with three distinct vertices. *)
Definition proper (t : tri) : Prop :=
  let '(a, b, c) := t in a ≠ b ∧ a ≠ c ∧ b ≠ c.

(** No two triangles (two different rows of the triangle list) share an
    edge. *)
Definition no_shared_edge (tl : list tri) : Prop :=
  ∀ i j t1 t2 e,
    i ≠ j → tl !! i = Some t1 → tl !! j = Some t2 →
    e ∈ tri_edges t1 → e ∉ tri_edges t2.

(** The sorted edge list [boundary_tri_index] builds. *)
Definition boundary_edges (tl : list tri) : list edge :=
  np_sort (cols01 tl ++ cols02 tl ++ cols12 tl).

(** How often an unordered pair occurs among the [3 * n_tris] edges, and in
    how many triangles it occurs. *)
Definition multiplicity (e : edge) (tl : list tri) : nat :=
  count e (all_edges tl).
Definition n_owners (e : edge) (tl : list tri) : nat :=
  length (filter (λ t, e ∈ tri_edges t) tl).

(** *** Areas *)

Local Open Scope R_scope.

(** [self.points[i]]: out of range is an [IndexError] *)
Definition row_at (pts : list (list R)) (i : nat) : result (list R) :=
  match pts !! i with
  | Some r => Ok r
  | None => Raise IndexError
  end.

(** [self.points[self.trilist]]: an (n_tris, 3, n_dims) array *)
Fixpoint take_points (pts : list (list R)) (tl : list tri)
    : result (list (list R * list R * list R)) :=
  match tl with
  | [] => Ok []
  | (a, b, c) :: tl =>
      match row_at pts a, row_at pts b, row_at pts c, take_points pts tl with
      | Ok pa, Ok pb, Ok pc, Ok rest => Ok ((pa, pb, pc) :: rest)
      | Raise e, _, _, _ | _, Raise e, _, _
      | _, _, Raise e, _ | _, _, _, Raise e => Raise e
      end
  end.

(** [np.cross] of two 2-vectors (a scalar) and of two 3-vectors *)
Definition cross2 (u v : list R) : R :=
  nth 0 u 0 * nth 1 v 0 - nth 1 u 0 * nth 0 v 0.
Definition cross3 (u v : list R) : list R :=
  [ nth 1 u 0 * nth 2 v 0 - nth 2 u 0 * nth 1 v 0;
    nth 2 u 0 * nth 0 v 0 - nth 0 u 0 * nth 2 v 0;
    nth 0 u 0 * nth 1 v 0 - nth 1 u 0 * nth 0 v 0 ].

(** [np.linalg.norm] of one row *)
Definition norm (v : list R) : R := sqrt (vsum (map (λ x, x * x) v)).

(** [TriMesh.tri_areas] *)
Definition tri_areas (self : TriMesh) : result (list R) :=
  match take_points (points self) (trilist self) with
  | Raise e => Raise e
  | Ok t =>
      let ij_ik := map (λ '(pa, pb, pc), (vsub pb pa, vsub pc pa)) t in
      if (n_dims self =? 2)%nat then
        Ok (map (λ '(ij, ik), cross2 ij ik * 0.5) ij_ik)
      else if (n_dims self =? 3)%nat then
        Ok (map (λ '(ij, ik), norm (cross3 ij ik) * 0.5) ij_ik)
      else Raise ValueError
  end.

(** *** Words of the specification about areas *)

(** Every index of the triangle list is a position of [points]. *)
Definition in_range (self : TriMesh) : Prop :=
  Forall (λ t, Forall (λ v, (v < n_points self)%nat) (verts t)) (trilist self).

(** The triangle [P], [Q], [R] has its right angle at [P], with legs of
    length 3 and 4; and it has such a right angle at one of its vertices. *)
Definition right_at (P Q R : list R) : Prop :=
  dot (vsub Q P) (vsub R P) = 0 ∧
  ((dot (vsub Q P) (vsub Q P) = 9 ∧ dot (vsub R P) (vsub R P) = 16) ∨
   (dot (vsub Q P) (vsub Q P) = 16 ∧ dot (vsub R P) (vsub R P) = 9)).
Definition right_3_4 (A B C : list R) : Prop :=
  right_at A B C ∨ right_at B C A ∨ right_at C A B.

(** *** Masking *)

Local Close Scope R_scope.

(** [np.all(mask)] *)
Definition np_all (mask : list bool) : bool := forallb (λ b, b) mask.

(** [np.nonzero(mask)[0]] *)
Definition nonzero (mask : list bool) : list nat :=
  filter (λ i, mask !! i = Some true) (seq 0 (length mask)).

(** [np.setdiff1d(a, b)]: the sorted distinct values of [a] not in [b] *)
Definition setdiff1d (a b : list nat) : list nat :=
  filter (λ x, x ∉ b) (merge_sort (≤) (remove_dups a)).

(** [mask[indices] = False]; the indices the code passes come from
    [np.nonzero(mask)], so none is out of range. *)
Definition clear_at (indices : list nat) (mask : list bool) : list bool :=
  foldr (λ i m, <[i:=false]> m) mask indices.

(** [points[mask, :]] for a mask as long as [points] *)
Fixpoint select_rows {A} (rows : list A) (mask : list bool) : list A :=
  match rows, mask with
  | r :: rows, b :: mask =>
      if b then r :: select_rows rows mask else select_rows rows mask
  | _, _ => []
  end.

(** Modelled from the spec: [mask_adjacency_array]
    (menpo/shape/adjacency.py) is not part of the sources.  Any triangle
    referencing a removed point, one whose mask entry is [False], is
    dropped entirely. *)
Definition mask_adjacency_array (mask : list bool) (adjacency_array : list tri)
    : list tri :=
  filter (λ t, Forall (λ v, mask !! v ≠ Some false) (verts t)) adjacency_array.

(** Modelled from the spec: [reindex_adjacency_array]
    (menpo/shape/adjacency.py) is not part of the sources.  The triangle
    list is renumbered to the new, contiguous index space: an index
    becomes the number of smaller indices the array uses. *)
Definition rank (used : list nat) (v : nat) : nat :=
  length (filter (λ k, k ∈ used) (seq 0 v)).
Definition reindex_adjacency_array (adjacency_array : list tri) : list tri :=
  let used := flatten adjacency_array in
  map (λ '(a, b, c), (rank used a, rank used b, rank used c)) adjacency_array.

(** [self.points], [self.trilist], [self.n_points] on a mesh in the store *)
Definition self_points (self : loc) : M (nat * list (list R)) :=
  '(p, _) ← load_mesh self; load_float p.
Definition self_trilist (self : loc) : M (list tri) :=
  '(_, t) ← load_mesh self; load_int3 t.
Definition self_n_points (self : loc) : M nat :=
  '(_, rows) ← self_points self; mret (length rows).

(** [tm.trilist = t] and [tm.points = p] *)
Definition set_trilist (tm t : loc) : M unit :=
  '(p, _) ← load_mesh tm; store_at tm (TriMeshObj p t).
Definition set_points (tm p : loc) : M unit :=
  '(_, t) ← load_mesh tm; store_at tm (TriMeshObj p t).

(** Modelled from the spec: [copy] is inherited from the point cloud
    (menpo/shape/pointcloud.py, menpo/base.py), which is not part of the
    sources.  It is a deep copy: a new instance with new arrays. *)
Definition copy (self : loc) : M loc :=
  '(n_cols, rows) ← self_points self;
  tl ← self_trilist self;
  p ← alloc (NdFloat n_cols rows);
  t ← alloc (NdInt3 tl);
  alloc (TriMeshObj p t).

(** [TriMesh._isolated_mask] *)
Definition _isolated_mask (self mask : loc) : M loc :=
  m ← load_bool mask;
  tl ← self_trilist self;
  let masked_adj := mask_adjacency_array m tl in
  let isolated_indices := setdiff1d (nonzero m) (flatten masked_adj) in
  new_mask ← alloc (NdBool m);
  nm ← load_bool new_mask;
  store_at new_mask (NdBool (clear_at isolated_indices nm));;
  mret new_mask.

(** [TriMesh.from_mask] *)
Definition from_mask (self mask : loc) : M loc :=
  m ← load_bool mask;
  n ← self_n_points self;
  if negb (length m =? n) then raise ValueError
  else
    tm ← copy self;
    if np_all m then mret tm
    else
      isolated_mask ← _isolated_mask self mask;
      im ← load_bool isolated_mask;
      tl ← self_trilist self;
      let masked_adj := mask_adjacency_array im tl in
      t ← alloc (NdInt3 (reindex_adjacency_array masked_adj));
      set_trilist tm t;;
      '(n_cols, rows) ← self_points tm;
      p ← alloc (NdFloat n_cols (select_rows rows im));
      set_points tm p;;
      mret tm.

(** *** Words of the specification about masking *)

(** The mask [_isolated_mask] leaves in its new array. *)
Definition isolated_mask_of (mask : list bool) (tl : list tri) : list bool :=
  clear_at (setdiff1d (nonzero mask) (flatten (mask_adjacency_array mask tl)))
    mask.

(** the number of [True] entries *)
Definition count_true (mask : list bool) : nat :=
  length (filter (λ b, b = true) mask).

(** Every point takes part in at least one triangle. *)
Definition no_isolated_point (self : TriMesh) : Prop :=
  ∀ j, j < n_points self → ∃ t, t ∈ trilist self ∧ j ∈ verts t.

(** The mesh an instance in the store stands for. *)
Definition mesh_at (h : store) (l : loc) : option TriMesh :=
  match h !! l with
  | Some (TriMeshObj p t) =>
      match h !! p, h !! t with
      | Some (NdFloat n_cols rows), Some (NdInt3 tl) =>
          Some {| points := rows; n_dims := n_cols; trilist := tl |}
      | _, _ => None
      end
  | _ => None
  end.
End Mesh.

(** ** pybug/model/pca.py: the other queries of [PCAModel] *)

Module PCAQueries.
Import Vec PCA.
Local Open Scope R_scope.

(** [u + v] on two 1-D arrays: numpy needs equal lengths, or one of the
    two of length 1, which it repeats. *)
Definition add_broadcast (u v : list R) : result (list R) :=
  if (length u =? length v)%nat then Ok (zip_with Rplus u v)
  else
    match u, v with
    | [a], _ => Ok (map (λ y, a + y) v)
    | _, [b] => Ok (map (λ x, x + b) u)
    | _, _ => Raise ValueError
    end.

(** [PCAModel.eigenvalues_ratio] *)
Definition eigenvalues_ratio (self : PCAModel) : list R :=
  map (λ e, e / vsum (eigenvalues self)) (eigenvalues self).

(** [PCAModel.component_vector]; [index] is a natural, negative indices are
    outside the model. *)
Definition component_vector (self : PCAModel) (index : nat)
    (with_mean : bool) (scale : R) : result (list R) :=
  if with_mean then
    match eigenvalues self !! index with
    | None => Raise IndexError
    | Some e =>
        let scaled_eigval := scale * sqrt e in
        match components self !! index with
        | None => Raise IndexError
        | Some c =>
            add_broadcast (map (λ y, scaled_eigval * y) c) (mean_vector self)
        end
    end
  else
    match components self !! index with
    | None => Raise IndexError
    | Some c => Ok c
    end.

Section Subspace.
(** [project_out_vectors] belongs to the base class, which is not part of
    the sources: it is a parameter here. *)
Variable project_out_vectors : PCAModel → list R → result (list R).

(** [PCAModel.distance_to_subspace_vector]: Python evaluates the left
    operand of [*], the inverse noise variance, first. *)
Definition distance_to_subspace_vector (self : PCAModel)
    (vector_instance : list R) : result (list R) :=
  match inverse_noise_variance self with
  | Raise e => Raise e
  | Ok inv =>
      match project_out_vectors self vector_instance with
      | Raise e => Raise e
      | Ok v => Ok (map (λ y, inv * y) v)
      end
  end.
End Subspace.
End PCAQueries.

(** ** menpo/shape/mesh/base.py: adjacency, edge vectors and means *)

Module MeshEdges.
Import Vec Store Mesh.
Local Open Scope R_scope.

(** [trilist_to_adjacency_array]: [np.hstack] pairs the last column with
    the first one, [np.concatenate] stacks the three blocks. *)
Definition trilist_to_adjacency_array (trilist : list tri) : list edge :=
  let wrap_around_adj :=
    zip_with pair (map (λ '(_, _, c), c) trilist)
                  (map (λ '(a, _, _), a) trilist) in
  map (λ '(a, b, _), (a, b)) trilist
  ++ map (λ '(_, b, c), (b, c)) trilist
  ++ wrap_around_adj.

(** [TriMesh.edge_vectors] *)
Definition edge_vectors (self : TriMesh) : result (list (list R)) :=
  match take_points (points self) (trilist self) with
  | Raise e => Raise e
  | Ok t =>
      Ok (map (λ '(pa, pb, pc), vsub pb pa) t
          ++ map (λ '(pa, pb, pc), vsub pc pb) t
          ++ map (λ '(pa, pb, pc), vsub pc pa) t)
  end.

(** [TriMesh.edge_lengths] *)
Definition edge_lengths (self : TriMesh) : result (list R) :=
  match edge_vectors self with
  | Raise e => Raise e
  | Ok vs => Ok (map norm vs)
  end.

(** [self.points[pairs]] for an (M, 2) index array: an (M, 2, n_dims)
    array *)
Fixpoint take_pairs (pts : list (list R)) (pairs : list edge)
    : result (list (list R * list R)) :=
  match pairs with
  | [] => Ok []
  | (i, j) :: pairs =>
      match row_at pts i, row_at pts j, take_pairs pts pairs with
      | Ok pi, Ok pj, Ok rest => Ok ((pi, pj) :: rest)
      | Raise e, _, _ | _, Raise e, _ | _, _, Raise e => Raise e
      end
  end.

(** [TriMesh.unique_edge_vectors] *)
Definition unique_edge_vectors (self : TriMesh) : result (list (list R)) :=
  match take_pairs (points self) (unique_edge_indicies self) with
  | Raise e => Raise e
  | Ok x => Ok (map (λ '(p0, p1), vsub p1 p0) x)
  end.

(** [TriMesh.unique_edge_lengths] *)
Definition unique_edge_lengths (self : TriMesh) : result (list R) :=
  match unique_edge_vectors self with
  | Raise e => Raise e
  | Ok vs => Ok (map norm vs)
  end.

(** [TriMesh.mean_edge_length] *)
Definition mean_edge_length (self : TriMesh) (unique : bool) : result R :=
  match (if unique then unique_edge_lengths self else edge_lengths self) with
  | Raise e => Raise e
  | Ok ls => Ok (mean ls)
  end.

(** [TriMesh.mean_tri_area] *)
Definition mean_tri_area (self : TriMesh) : result R :=
  match tri_areas self with
  | Raise e => Raise e
  | Ok areas => Ok (mean areas)
  end.

(** *** Words used to state the properties *)

(** the distance between the two points of an index pair *)
Definition pair_length (pts : list (list R)) (e : edge) : R :=
  norm (vsub (nth e.2 pts []) (nth e.1 pts [])).

(** the triangle list with every triangle's winding reversed *)
Definition reversed (tl : list tri) : list tri :=
  map (λ '(a, b, c), (a, c, b)) tl.
End MeshEdges.

(** * Lists *)

Module ListFacts.
(** [map] of the Standard Library is the [fmap] of stdpp's lists. *)
Lemma map_fmap {A B} (f : A → B) (l : list A) : map f l = f <$> l.
Proof. reflexivity. Qed.
End ListFacts.

(** * Properties of [PCAModel] *)

Module PCAFacts.
Import Vec PCA ListFacts.
Local Open Scope R_scope.

Lemma init_counts pcd samples center bias self :
  PCAModel_init pcd samples center bias = Ok self →
  n_components self = n_available_components self.
Proof.
  unfold PCAModel_init. destruct samples as [|s samples]; [discriminate|].
  destruct (pcd _ _ _) as [[evecs evals] mu]. intros [= <-]. reflexivity.
Qed.

Lemma noise_variance_all_retained self :
  n_components self = n_available_components self → noise_variance self = 0.
Proof.
  intros E. unfold noise_variance. rewrite E, Nat.eqb_refl. reflexivity.
Qed.

Lemma noise_variance_trimmed self :
  (n_components self < n_available_components self)%nat →
  noise_variance self = mean (drop (n_components self) (_eigenvalues self)).
Proof.
  intros Hlt. unfold noise_variance.
  destruct (Nat.eqb_spec (n_components self) (n_available_components self));
    [lia | reflexivity].
Qed.

(** the mean is the sum divided by the count, whenever there is something
    to average *)
Lemma mean_sum (v : list R) : v ≠ [] → mean v * INR (length v) = vsum v.
Proof.
  intros Hv. unfold mean. field. apply not_0_INR.
  destruct v; [done | simpl; lia].
Qed.

Lemma trim_components_ok n self :
  (default (n_components self) n ≤ n_available_components self)%nat →
  trim_components n self =
    Ok {| _components := take (default (n_components self) n) (_components self);
          n_components := default (n_components self) n;
          n_available_components := n_available_components self;
          _eigenvalues :=
            take (n_available_components self) (_eigenvalues self);
          mean_vector := mean_vector self |}.
Proof.
  intros Hle. unfold trim_components, MeanInstanceLinearModel_trim_components.
  destruct (Nat.ltb_spec (n_available_components self)
              (default (n_components self) n)); [lia | reflexivity].
Qed.

Lemma trim_components_raises n self :
  (n_available_components self < default (n_components self) n)%nat →
  trim_components n self = Raise ValueError.
Proof.
  intros Hlt. unfold trim_components, MeanInstanceLinearModel_trim_components.
  destruct (Nat.ltb_spec (n_available_components self)
              (default (n_components self) n)); [reflexivity | lia].
Qed.

(** C1: for a model whose active component count [m] is strictly less than
    the number of available components, the noise variance is the
    arithmetic mean of the eigenvalues beyond the [m] retained ones
    (positions [m], [m+1], ... of [_eigenvalues]: their sum divided by
    their number); [trim_components] keeps every stored eigenvalue, so
    after trimming to [m] that estimate is still computable and is the mean
    of the eigenvalues the trimming excluded. *)
Theorem noise_variance_after_trim :
  (∀ self,
     (n_components self < n_available_components self)%nat →
     noise_variance self
       = mean (drop (n_components self) (_eigenvalues self))) ∧
  (∀ n self self',
     parallel self → trim_components n self = Ok self' →
     _eigenvalues self' = _eigenvalues self ∧ parallel self') ∧
  (∀ self m,
     parallel self →
     (m < n_available_components self)%nat →
     ∃ self',
       trim_components (Some m) self = Ok self' ∧
       n_components self' = m ∧
       n_available_components self' = n_available_components self ∧
       _eigenvalues self' = _eigenvalues self ∧
       noise_variance self' = mean (drop m (_eigenvalues self)) ∧
       noise_variance self' * INR (n_available_components self - m)
         = vsum (drop m (_eigenvalues self))).
Proof.
  split_and!.
  - apply noise_variance_trimmed.
  - intros n self self' Hpar.
    destruct (Nat.le_gt_cases (default (n_components self) n)
                (n_available_components self)) as [Hle|Hgt].
    + rewrite trim_components_ok by done. intros [= <-]. unfold parallel. simpl.
      rewrite take_ge by (unfold parallel in Hpar; lia). done.
    + by rewrite trim_components_raises.
  - intros self m Hpar Hm. eexists. split.
    { apply trim_components_ok. simpl. lia. }
    simpl. rewrite take_ge by (unfold parallel in Hpar; lia).
    split_and!; try done.
    + by rewrite noise_variance_trimmed by (simpl; lia).
    + rewrite noise_variance_trimmed by (simpl; lia). simpl.
      replace (n_available_components self - m)%nat
        with (length (drop m (_eigenvalues self)))
        by (rewrite length_drop; unfold parallel in Hpar; lia).
      apply mean_sum. intros E. apply (f_equal length) in E.
      rewrite length_drop in E. unfold parallel in Hpar. simpl in E. lia.
Qed.

(** C6: with all available components retained the noise variance is
    exactly zero (so it is for a freshly built model), and
    [inverse_noise_variance] raises [ValueError] exactly when the noise
    variance is zero, returning [1 / noise_variance] otherwise. *)
Theorem inverse_noise_variance_domain :
  (∀ self, n_components self = n_available_components self →
     noise_variance self = 0 ∧ inverse_noise_variance self = Raise ValueError) ∧
  (∀ pcd samples center bias self,
     PCAModel_init pcd samples center bias = Ok self →
     noise_variance self = 0 ∧ inverse_noise_variance self = Raise ValueError) ∧
  (∀ self, inverse_noise_variance self = Raise ValueError ↔
     noise_variance self = 0) ∧
  (∀ self, noise_variance self ≠ 0 →
     inverse_noise_variance self = Ok (1 / noise_variance self)).
Proof.
  assert (Hinv : ∀ self, noise_variance self = 0 →
                   inverse_noise_variance self = Raise ValueError).
  { intros self E. unfold inverse_noise_variance.
    destruct (Req_dec_T (noise_variance self) 0); [reflexivity | contradiction]. }
  repeat split.
  - by apply noise_variance_all_retained.
  - by apply Hinv, noise_variance_all_retained.
  - eapply noise_variance_all_retained, init_counts; eassumption.
  - eapply Hinv, noise_variance_all_retained, init_counts; eassumption.
  - unfold inverse_noise_variance.
    destruct (Req_dec_T (noise_variance self) 0); [done | discriminate].
  - apply Hinv.
  - intros self Hne. unfold inverse_noise_variance.
    destruct (Req_dec_T (noise_variance self) 0); [contradiction | reflexivity].
Qed.

(** *** Whitening *)

Lemma div_column_rows (a : list (list R)) (d : list R) :
  length a = length d →
  div_column a d = Ok (zip_with (λ row di, vdiv di row) a d).
Proof.
  intros Hlen. unfold div_column.
  destruct a as [|r [|r' a]], d as [|d0 [|d1 d]]; simplify_eq/=; try done.
  by rewrite Hlen, Nat.eqb_refl.
Qed.

Lemma whitened_components_rows self :
  length (components self) = length (eigenvalues self) →
  whitened_components self =
    Ok (zip_with (λ c e, vdiv (sqrt (e + noise_variance self)) c)
          (components self) (eigenvalues self)).
Proof.
  intros Hlen. unfold whitened_components.
  rewrite div_column_rows by (by rewrite !length_map).
  f_equal. clear Hlen. generalize (eigenvalues self) as es.
  induction (components self) as [|c cs IH]; intros [|e es]; simpl; f_equal; auto.
Qed.

(** C8: every row [i] of [whitened_components] is the retained component
    [components[i]] divided by [sqrt(eigenvalues[i] + noise_variance)]
    (there are as many rows as retained components). *)
Theorem whitened_components_row (self : PCAModel) :
  length (components self) = length (eigenvalues self) →
  ∃ w,
    whitened_components self = Ok w ∧
    length w = length (components self) ∧
    ∀ i c e,
      components self !! i = Some c →
      eigenvalues self !! i = Some e →
      w !! i = Some (map (λ x, x / sqrt (e + noise_variance self)) c).
Proof.
  intros Hlen. eexists. split; [by apply whitened_components_rows|]. split.
  - rewrite length_zip_with. lia.
  - intros i c e Hc He. rewrite lookup_zip_with, Hc. simpl. by rewrite He.
Qed.

(** *** Whitened projection *)

Lemma dot_cons a u b v : dot (a :: u) (b :: v) = a * b + dot u v.
Proof. reflexivity. Qed.

Lemma dot_vdiv x d c : dot x (vdiv d c) = dot x c / d.
Proof.
  revert c. induction x as [|a x IH]; intros [|b c].
  1-3: unfold dot; simpl; unfold Rdiv; ring.
  change (vdiv d (b :: c)) with (b / d :: vdiv d c).
  rewrite !dot_cons, IH. unfold Rdiv. ring.
Qed.

Lemma nth_vdiv j d c : nth j (vdiv d c) 0 = nth j c 0 / d.
Proof.
  revert j. induction c as [|b c IH]; intros [|j]; simpl; auto.
  all: unfold Rdiv; ring.
Qed.

Lemma whitened_term x c e nv j :
  0 < e + nv →
  dot x (vdiv (sqrt (e + nv)) c) * nth j (vdiv (sqrt (e + nv)) c) 0
  = dot x c / (e + nv) * nth j c 0.
Proof.
  intros Hpos. rewrite dot_vdiv, nth_vdiv.
  assert (Hs : sqrt (e + nv) * sqrt (e + nv) = e + nv) by (apply sqrt_sqrt; lra).
  assert (Hne : sqrt (e + nv) ≠ 0).
  { intros E. rewrite E in Hs. lra. }
  rewrite <- Hs at 3. field. exact Hne.
Qed.

Lemma whitened_column x nv j (cs : list (list R)) (es : list R) :
  Forall (λ e, 0 < e + nv) es →
  let w := zip_with (λ c e, vdiv (sqrt (e + nv)) c) cs es in
  dot (map (dot x) w) (col j w)
  = dot (zip_with (λ c e, dot x c / (e + nv)) cs es) (col j cs).
Proof.
  intros Hpos. simpl. revert es Hpos.
  induction cs as [|c cs IH]; intros [|e es] Hpos; try reflexivity.
  apply Forall_cons in Hpos as [He Hes]. simpl.
  rewrite !dot_cons, IH by assumption. f_equal. by apply whitened_term.
Qed.

Lemma whitened_lengths (x : list R) nv (cs : list (list R)) (es : list R) :
  Forall (λ c, length c = length x) cs →
  forallb (λ row, length row =? length x)%nat
    (zip_with (λ c e, vdiv (sqrt (e + nv)) c) cs es) = true.
Proof.
  intros Hcs. revert es. induction Hcs as [|c cs Hc Hcs IH]; intros [|e es];
    try reflexivity.
  simpl. unfold vdiv at 1. rewrite length_map, Hc, Nat.eqb_refl. apply IH.
Qed.

Lemma project_whitened_vector_scaled self x :
  shaped self x →
  Forall (λ e, 0 < e + noise_variance self) (eigenvalues self) →
  project_whitened_vector self x = Ok (scaled_reconstruction self x).
Proof.
  intros [Hlen Hrows] Hpos. unfold project_whitened_vector.
  rewrite whitened_components_rows by assumption.
  unfold dgemm_x_wT. rewrite whitened_lengths by assumption.
  f_equal. unfold scaled_reconstruction, dgemm_weights_w.
  apply map_ext. intros j. by apply whitened_column.
Qed.

Lemma unit_denominators x nv (cs : list (list R)) (es : list R) :
  length cs = length es →
  Forall (λ e, e + nv = 1) es →
  zip_with (λ c e, dot x c / (e + nv)) cs es = map (dot x) cs.
Proof.
  revert es. induction cs as [|c cs IH]; intros [|e es] Hlen Hone;
    simplify_eq/=; try reflexivity.
  apply Forall_cons in Hone as [He Hes]. rewrite He, IH by assumption.
  f_equal. field.
Qed.

(** combinations of rows, and their dot products *)
Lemma dot_nil_r u : dot u [] = 0.
Proof. by destruct u. Qed.

Lemma dot_zeros {A} (l : list A) c : dot (map (λ _, 0) l) c = 0.
Proof.
  revert c. induction l as [|y l IH]; intros [|b c]; try reflexivity.
  simpl. rewrite dot_cons, IH. ring.
Qed.

Lemma dot_scale s u c : dot (map (λ y, s * y) u) c = s * dot u c.
Proof.
  revert c. induction u as [|y u IH]; intros [|b c].
  1-3: unfold dot; simpl; ring.
  simpl. rewrite !dot_cons, IH. ring.
Qed.

Lemma dot_add u v c :
  length u = length v → dot (zip_with Rplus u v) c = dot u c + dot v c.
Proof.
  revert v c. induction u as [|y u IH]; intros [|z v] [|b c] Hlen;
    simplify_eq/=; rewrite ?dot_nil_r; try (unfold dot; simpl; ring).
  rewrite !dot_cons, IH by done. ring.
Qed.

Lemma map_nth_seq (c : list R) s :
  map (λ j, s * nth j c 0) (seq 0 (length c)) = map (λ y, s * y) c.
Proof.
  induction c as [|y c IH]; [done|]. simpl. f_equal.
  rewrite <- seq_shift, map_map. exact IH.
Qed.

Lemma map_plus {A} (f g : A → R) (l : list A) :
  map (λ j, f j + g j) l = zip_with Rplus (map f l) (map g l).
Proof. induction l as [|y l IH]; [done|]. simpl. by rewrite IH. Qed.

Lemma combination_cons a0 a c0 cs :
  dgemm_weights_w (length c0) (a0 :: a) (c0 :: cs)
  = zip_with Rplus (map (λ y, a0 * y) c0) (dgemm_weights_w (length c0) a cs).
Proof.
  unfold dgemm_weights_w. rewrite <- map_nth_seq, <- map_plus.
  apply map_ext. intros j. reflexivity.
Qed.

Lemma dot_combination n a cs c :
  Forall (λ ck, length ck = n) cs →
  dot (dgemm_weights_w n a cs) c = dot a (map (λ ck, dot ck c) cs).
Proof.
  intros Hcs. revert a. induction Hcs as [|c0 cs Hc0 Hcs IH]; intros a.
  { unfold dgemm_weights_w. simpl. rewrite !dot_nil_r. apply dot_zeros. }
  destruct a as [|a0 a].
  { unfold dgemm_weights_w. rewrite (map_ext _ (λ _, 0)) by done. apply dot_zeros. }
  subst n. rewrite combination_cons, dot_add, dot_scale, IH.
  - reflexivity.
  - unfold dgemm_weights_w. by rewrite !length_map, length_seq.
Qed.

Lemma dot_all_zero a v : Forall (λ y, y = 0) v → dot a v = 0.
Proof.
  intros Hv. revert a. induction Hv as [|y v -> Hv IH]; intros [|a0 a];
    try reflexivity.
  rewrite dot_cons, IH. ring.
Qed.

Lemma dot_unit a v i :
  length a = length v →
  (∀ k y, v !! k = Some y → y = if decide (k = i) then 1 else 0) →
  dot a v = nth i a 0.
Proof.
  revert v i. induction a as [|a0 a IH]; intros [|y v] i Hlen Hv;
    simplify_eq/=.
  { by destruct i. }
  rewrite dot_cons. destruct i as [|i].
  - rewrite (Hv 0%nat y) by done. simpl. rewrite dot_all_zero; [ring|].
    apply Forall_forall. intros z [k Hk]%list_elem_of_lookup.
    by rewrite (Hv (S k) z).
  - rewrite (Hv 0%nat y) by done. simpl. rewrite (IH v i); [ring | done |].
    intros k z Hk. rewrite (Hv (S k) z) by done.
    destruct (decide (k = i)), (decide (S k = S i)); congruence.
Qed.

Lemma coefficients_of_combination n a cs :
  Forall (λ ck, length ck = n) cs → orthonormal cs → length a = length cs →
  map (dot (dgemm_weights_w n a cs)) cs = a.
Proof.
  intros Hcs Horth Hlen. apply list_eq. intros i.
  rewrite map_fmap, list_lookup_fmap.
  destruct (cs !! i) as [ci|] eqn:Hi; simpl.
  - rewrite dot_combination by done.
    rewrite (dot_unit _ _ i).
    + pose proof (lookup_lt_Some _ _ _ Hi) as Hlt. rewrite <- Hlen in Hlt.
      apply lookup_lt_is_Some in Hlt as [ai Hai].
      rewrite Hai. f_equal. by apply nth_lookup_Some.
    + by rewrite length_map.
    + intros k y. rewrite map_fmap, list_lookup_fmap.
      destruct (cs !! k) as [ck|] eqn:Hk; [|done]. intros [= <-].
      by apply Horth.
  - symmetry. apply lookup_ge_None. apply lookup_ge_None in Hi. lia.
Qed.

Lemma reconstruction_span self x :
  shaped self x → orthonormal (components self) → in_span self x →
  reconstruction self x = x.
Proof.
  intros [_ Hrows] Horth (a & Hlen & Hx). unfold reconstruction.
  replace (map (dot x) (components self)) with a; [by rewrite <- Hx|].
  rewrite Hx at 1. symmetry. by apply coefficients_of_combination.
Qed.

(** a component comes back unchanged only if its denominator is 1 *)
Lemma whitened_fixed_component self i ci e :
  shaped self ci → orthonormal (components self) →
  Forall (λ e, 0 < e + noise_variance self) (eigenvalues self) →
  components self !! i = Some ci → eigenvalues self !! i = Some e →
  project_whitened_vector self ci = Ok ci →
  e + noise_variance self = 1.
Proof.
  intros Hshape Horth Hpos Hci He.
  rewrite project_whitened_vector_scaled by done. intros [= Hfix].
  assert (Hpos_e : 0 < e + noise_variance self).
  { rewrite Forall_forall in Hpos. apply Hpos. by eapply list_elem_of_lookup_2. }
  assert (Hdot : dot (scaled_reconstruction self ci) ci
                 = dot ci ci / (e + noise_variance self)).
  { unfold scaled_reconstruction. rewrite dot_combination by apply Hshape.
    rewrite (dot_unit _ _ i).
    - apply nth_lookup_Some. by rewrite lookup_zip_with, Hci, He.
    - rewrite length_zip_with, length_map. destruct Hshape as [-> _]. lia.
    - intros k y. rewrite map_fmap, list_lookup_fmap.
      destruct (components self !! k) as [ck|] eqn:Hk; [|done].
      intros [= <-]. by apply Horth. }
  rewrite Hfix, (Horth i i ci ci), decide_True in Hdot by done.
  apply (Rmult_eq_compat_r (e + noise_variance self)) in Hdot.
  unfold Rdiv in Hdot. rewrite Rmult_assoc, Rinv_l in Hdot by lra. lra.
Qed.

(** C4 (amended): [project_whitened_vector] returns the sum of
    [((x . c_i) / (eigenvalue_i + noise_variance)) c_i] over the retained
    components: the unwhitened reconstruction with its [i]-th coefficient
    divided by [eigenvalue_i + noise_variance].  When all these
    denominators are 1 it is the unwhitened reconstruction, and returns
    every vector of the span of orthonormal components unchanged, whether
    or not all available components are retained; and it returns a
    component unchanged only if that component's denominator is 1. *)
Theorem project_whitened_vector_is_scaled (self : PCAModel) (x : list R) :
  shaped self x →
  Forall (λ e, 0 < e + noise_variance self) (eigenvalues self) →
  project_whitened_vector self x = Ok (scaled_reconstruction self x) ∧
  (Forall (λ e, e + noise_variance self = 1) (eigenvalues self) →
   project_whitened_vector self x = Ok (reconstruction self x) ∧
   (orthonormal (components self) → in_span self x →
    project_whitened_vector self x = Ok x)) ∧
  (orthonormal (components self) →
   ∀ i e, components self !! i = Some x → eigenvalues self !! i = Some e →
          project_whitened_vector self x = Ok x →
          e + noise_variance self = 1).
Proof.
  intros Hshape Hpos. split_and!.
  - by apply project_whitened_vector_scaled.
  - intros Hone.
    assert (E : project_whitened_vector self x = Ok (reconstruction self x)).
    { rewrite project_whitened_vector_scaled by assumption.
      unfold scaled_reconstruction, reconstruction.
      rewrite unit_denominators; [reflexivity | apply Hshape | assumption]. }
    split; [done|]. intros Horth Hspan.
    by rewrite E, reconstruction_span.
  - intros Horth i e Hx He Hfix. by eapply whitened_fixed_component.
Qed.

(** Evaluating the model on explicit vectors. *)
Ltac eval_pca :=
  unfold scaled_reconstruction, reconstruction, dgemm_weights_w,
    noise_variance, eigenvalues, components; simpl;
  unfold col, dot, mean, vsum; simpl.

(** C4 (as stated) fails in both directions.  A model retaining its only
    component, of eigenvalue 4, maps the vector [[1; 0]] of its span (the
    unwhitened reconstruction returns it) to [[1/4; 0]]; and a model trimmed
    from two components to one, with eigenvalues 1/2 and 1/2, returns
    [[1; 0]] unchanged. *)
Lemma whitened_round_trip_counterexample :
  (let full := MeanInstanceLinearModel_init [[1; 0]] [0; 0] [4] in
   n_components full = n_available_components full ∧
   reconstruction full [1; 0] = [1; 0] ∧
   project_whitened_vector full [1; 0] = Ok [1 / 4; 0] ∧
   project_whitened_vector full [1; 0] ≠ Ok [1; 0]) ∧
  (let two :=
     MeanInstanceLinearModel_init [[1; 0]; [0; 1]] [0; 0] [1 / 2; 1 / 2] in
   ∃ trimmed,
     trim_components (Some 1%nat) two = Ok trimmed ∧
     (n_components trimmed < n_available_components trimmed)%nat ∧
     project_whitened_vector trimmed [1; 0] = Ok [1; 0]).
Proof.
  split.
  - simpl.
    assert (E : project_whitened_vector
                  (MeanInstanceLinearModel_init [[1; 0]] [0; 0] [4]) [1; 0]
                = Ok [1 / 4; 0]).
    { rewrite project_whitened_vector_scaled.
      - eval_pca. repeat f_equal; field.
      - split; [reflexivity | by repeat constructor].
      - eval_pca. repeat constructor. lra. }
    repeat split.
    + eval_pca. repeat f_equal; ring.
    + exact E.
    + rewrite E. intros [= H]. lra.
  - simpl. eexists. split; [apply trim_components_ok; simpl; lia|].
    split; [simpl; lia|].
    rewrite project_whitened_vector_scaled.
    + eval_pca. repeat f_equal; field.
    + split; [reflexivity | by repeat constructor].
    + eval_pca. repeat constructor. lra.
Qed.

Lemma noise_variance_after_trim_witness :
  ∃ self',
    trim_components (Some 1%nat)
      (MeanInstanceLinearModel_init [[1; 0]; [0; 1]] [0; 0] [3; 1]) = Ok self' ∧
    n_components self' = 1%nat ∧
    noise_variance self' = mean [1].
Proof.
  destruct (proj2 (proj2 noise_variance_after_trim)
              (MeanInstanceLinearModel_init [[1; 0]; [0; 1]] [0; 0] [3; 1]) 1%nat)
    as (self' & Htrim & Hn & _ & _ & Hnv & _).
  - reflexivity.
  - simpl. lia.
  - exists self'. repeat split; assumption.
Defined.

Lemma inverse_noise_variance_domain_witness :
  noise_variance (MeanInstanceLinearModel_init [[1; 0]] [0; 0] [4]) = 0 ∧
  inverse_noise_variance (MeanInstanceLinearModel_init [[1; 0]] [0; 0] [4])
    = Raise ValueError.
Proof.
  apply (proj1 inverse_noise_variance_domain). reflexivity.
Defined.

Lemma whitened_components_row_witness :
  ∃ w,
    whitened_components (MeanInstanceLinearModel_init [[1; 0]] [0; 0] [4])
      = Ok w ∧
    length w = 1%nat.
Proof.
  destruct (whitened_components_row
              (MeanInstanceLinearModel_init [[1; 0]] [0; 0] [4]))
    as (w & Hw & Hlen & _).
  - reflexivity.
  - exists w. split; assumption.
Defined.

Lemma project_whitened_vector_is_scaled_witness :
  project_whitened_vector (MeanInstanceLinearModel_init [[1; 0]] [0; 0] [4])
    [1; 0]
  = Ok (scaled_reconstruction
          (MeanInstanceLinearModel_init [[1; 0]] [0; 0] [4]) [1; 0]).
Proof.
  apply (project_whitened_vector_is_scaled
           (MeanInstanceLinearModel_init [[1; 0]] [0; 0] [4]) [1; 0]).
  - split; [reflexivity | by repeat constructor].
  - eval_pca. repeat constructor. lra.
Defined.
End PCAFacts.


(** * Properties of [TriMesh] *)

Module MeshFacts.
Import Vec Store Mesh ListFacts.

(** *** Edges *)

Lemma length_edge_indices self : length (edge_indices self) = 3 * n_tris self.
Proof.
  unfold edge_indices, cols01, cols12, cols20, n_tris.
  rewrite !length_app, !length_map. lia.
Qed.

Lemma sort_row_sorted e : (sort_row e).1 ≤ (sort_row e).2.
Proof.
  destruct e as [a b]. unfold sort_row.
  destruct (Nat.leb_spec a b); simpl; lia.
Qed.

Lemma sort_row_swap a b : sort_row (b, a) = sort_row (a, b).
Proof.
  unfold sort_row. destruct (Nat.leb_spec a b), (Nat.leb_spec b a);
    f_equal; lia.
Qed.

(** the distinct rows, first occurrences first *)
Lemma first_occurrence_snoc_lt es x i :
  i < length es → first_occurrence (es ++ [x]) i = first_occurrence es i.
Proof.
  intros Hi. unfold first_occurrence.
  rewrite lookup_app_l by done. by rewrite take_app_le by lia.
Qed.

Lemma unique_snoc es x :
  rows_at (es ++ [x]) (unique_index (es ++ [x]))
  = rows_at es (unique_index es) ++ (if decide (x ∈ es) then [] else [x]).
Proof.
  unfold rows_at, unique_index.
  rewrite length_app, seq_app, filter_app, omap_app. simpl. f_equal.
  - assert (Hin : ∀ i, i ∈ seq 0 (length es) → i < length es).
    { intros i Hi%elem_of_seq. lia. }
    induction (seq 0 (length es)) as [|i l IH]; [done|].
    assert (i < length es) by (apply Hin; left).
    rewrite !filter_cons, first_occurrence_snoc_lt by done.
    destruct (decide (first_occurrence es i)); simpl.
    + rewrite lookup_app_l by done. unfold omap in IH.
      by rewrite IH by (intros; apply Hin; by right).
    + apply IH; intros; apply Hin; by right.
  - rewrite filter_cons, filter_nil. unfold first_occurrence.
    rewrite lookup_app_r, Nat.sub_diag by lia. simpl.
    rewrite take_app_length.
    destruct (decide (x ∈ es)) as [Hx|Hx].
    + rewrite bool_decide_eq_false_2 by (intros ?; contradiction). done.
    + rewrite bool_decide_eq_true_2 by done. simpl.
      rewrite lookup_app_r, Nat.sub_diag by lia. done.
Qed.

Lemma unique_props es :
  let u := rows_at es (unique_index es) in
  NoDup u ∧ (∀ e, e ∈ u ↔ e ∈ es) ∧ u `sublist_of` es.
Proof.
  induction es as [|x es (Hnd & Hin & Hsub)] using rev_ind; simpl in *.
  { split_and!; [constructor | done | done]. }
  rewrite unique_snoc. destruct (decide (x ∈ es)) as [Hx|Hx].
  - rewrite app_nil_r. split_and!.
    + done.
    + intros e. rewrite Hin, elem_of_app, list_elem_of_singleton.
      split; [by left | by intros [?| ->]].
    + by apply sublist_inserts_r.
  - split_and!.
    + apply NoDup_app. split_and!; [done | | apply NoDup_singleton].
      intros e He%Hin ->%list_elem_of_singleton. contradiction.
    + intros e. rewrite !elem_of_app, Hin. done.
    + by apply sublist_app.
Qed.

Lemma length_unique_le es : length (rows_at es (unique_index es)) ≤ length es.
Proof. apply sublist_length, unique_props. Qed.

Lemma length_unique_eq es :
  length (rows_at es (unique_index es)) = length es ↔ NoDup es.
Proof.
  destruct (unique_props es) as (Hnd & Hin & Hsub). simpl in *. split.
  - intros Hlen. eapply NoDup_Permutation_proper; [|exact Hnd].
    symmetry. apply submseteq_length_Permutation; [|lia].
    by apply sublist_submseteq.
  - intros Hes. apply Permutation_length.
    by apply NoDup_Permutation.
Qed.

(** the edges of a triangle list, block by block and triangle by triangle *)
Lemma edge_blocks_Permutation (f g h : tri → edge) (tl : list tri) :
  map f tl ++ map g tl ++ map h tl ≡ₚ concat (map (λ t, [f t; g t; h t]) tl).
Proof.
  induction tl as [|t tl IH]; [done|]. simpl.
  constructor. rewrite <- !Permutation_middle. by do 2 constructor.
Qed.

Lemma concat_map_Permutation {A B} (F G : A → list B) (l : list A) :
  (∀ x, F x ≡ₚ G x) → concat (map F l) ≡ₚ concat (map G l).
Proof.
  intros HFG. induction l as [|x l IH]; [done|]. simpl. by rewrite HFG, IH.
Qed.

Lemma sorted_edge_indices_Permutation self :
  np_sort (edge_indices self) ≡ₚ all_edges (trilist self).
Proof.
  unfold np_sort, edge_indices, cols01, cols12, cols20, all_edges.
  rewrite !map_app, !map_map.
  rewrite (edge_blocks_Permutation _ _ _ (trilist self)).
  apply concat_map_Permutation. intros [[a b] c]. cbn -[sort_row].
  rewrite (sort_row_swap a c). apply perm_skip, perm_swap.
Qed.

Lemma boundary_edges_eq tl :
  np_sort (cols01 tl ++ cols02 tl ++ cols12 tl) ≡ₚ all_edges tl.
Proof.
  unfold np_sort, cols01, cols02, cols12, all_edges.
  rewrite !map_app, !map_map.
  rewrite (edge_blocks_Permutation _ _ _ tl).
  apply concat_map_Permutation. by intros [[a b] c].
Qed.

(** three distinct vertices give three distinct edges, and conversely *)
Lemma sort_row_eq x y z w :
  sort_row (x, y) = sort_row (z, w) → (x = z ∧ y = w) ∨ (x = w ∧ y = z).
Proof.
  unfold sort_row.
  destruct (Nat.leb_spec x y), (Nat.leb_spec z w); intros [= -> ->]; auto.
Qed.

Lemma NoDup_tri_edges t : NoDup (tri_edges t) ↔ proper t.
Proof.
  destruct t as [[a b] c]. unfold tri_edges, proper.
  rewrite !NoDup_cons, !not_elem_of_cons. split.
  - intros ((Hbc & Hac & _) & (Hab & _) & _). split_and!; intros ->.
    + by apply Hab.
    + apply Hac. symmetry. apply sort_row_swap.
    + by apply Hbc.
  - intros (Hab & Hac & Hbc).
    split_and!; try apply not_elem_of_nil; try apply NoDup_nil_2.
    all: intros [[??]|[??]]%sort_row_eq; congruence.
Qed.

Lemma elem_of_all_edges e tl :
  e ∈ all_edges tl ↔ ∃ t, t ∈ tl ∧ e ∈ tri_edges t.
Proof.
  induction tl as [|t' tl IH].
  - split; [by intros ?%elem_of_nil | by intros (t & ?%elem_of_nil & _)].
  - change (all_edges (t' :: tl)) with (tri_edges t' ++ all_edges tl).
    rewrite elem_of_app, IH. split.
    + intros [He|(t & Ht & He)]; [exists t' | exists t]; split; try done.
      * by left.
      * by right.
    + intros (t & [->|Ht]%elem_of_cons & He); [by left | right; eauto].
Qed.

Lemma no_shared_edge_cons t tl :
  no_shared_edge (t :: tl) ↔
  (∀ t2 e, t2 ∈ tl → e ∈ tri_edges t → e ∉ tri_edges t2) ∧ no_shared_edge tl.
Proof.
  unfold no_shared_edge. split.
  - intros H. split.
    + intros t2 e [j Hj]%list_elem_of_lookup He.
      by apply (H 0 (S j) t t2 e).
    + intros i j t1 t2 e Hij H1 H2. apply (H (S i) (S j)); [lia | done | done].
  - intros [Hhd Htl] [|i] [|j] t1 t2 e Hij H1 H2 He; simplify_eq/=.
    + eapply Hhd; [|done]. by eapply list_elem_of_lookup_2.
    + intros He2. eapply Hhd; [|exact He2|exact He].
      by eapply list_elem_of_lookup_2.
    + eapply (Htl i j); [lia | done | done | done].
Qed.

Lemma NoDup_all_edges tl :
  NoDup (all_edges tl) ↔ Forall proper tl ∧ no_shared_edge tl.
Proof.
  induction tl as [|t tl IH].
  - split; [|intros; constructor]. intros _. split; [constructor|].
    intros i j t1 t2 e _ H1. by rewrite lookup_nil in H1.
  - change (all_edges (t :: tl)) with (tri_edges t ++ all_edges tl).
    rewrite NoDup_app, IH, Forall_cons, no_shared_edge_cons, NoDup_tri_edges.
    split.
    + intros (Ht & Hdisj & Htl & Hns). split_and!; try done.
      intros t2 e Ht2 He He2. apply (Hdisj e He).
      apply elem_of_all_edges. eauto.
    + intros ((Ht & Htl) & Hdisj & Hns). split_and!; try done.
      intros e He (t2 & Ht2 & He2)%elem_of_all_edges.
      by apply (Hdisj t2 e).
Qed.

Lemma elem_of_np_sort_sorted e es : e ∈ np_sort es → e.1 ≤ e.2.
Proof.
  unfold np_sort. rewrite map_fmap.
  intros (e' & -> & _)%list_elem_of_fmap. apply sort_row_sorted.
Qed.

(** C5 (amended): for every triangle list, [edge_indices] returns exactly
    [3 * n_tris] pairs and [unique_edge_indicies] at most [3 * n_tris]: the
    distinct rows of the sorted pairs, each with its endpoints ascending.
    The two lengths are equal if and only if no two triangles share an edge
    and every triangle has three distinct vertices. *)
Theorem edge_counts (self : TriMesh) :
  length (edge_indices self) = 3 * n_tris self ∧
  length (unique_edge_indicies self) ≤ 3 * n_tris self ∧
  (∀ e, e ∈ unique_edge_indicies self → e.1 ≤ e.2) ∧
  NoDup (unique_edge_indicies self) ∧
  (∀ e, e ∈ unique_edge_indicies self ↔ e ∈ np_sort (edge_indices self)) ∧
  (length (unique_edge_indicies self) = length (edge_indices self) ↔
     Forall proper (trilist self) ∧ no_shared_edge (trilist self)).
Proof.
  unfold unique_edge_indicies.
  destruct (unique_props (np_sort (edge_indices self))) as (Hnd & Hin & _).
  assert (Hlen : length (np_sort (edge_indices self)) = 3 * n_tris self).
  { unfold np_sort. by rewrite length_map, length_edge_indices. }
  split_and!.
  - apply length_edge_indices.
  - rewrite <- Hlen. apply length_unique_le.
  - intros e He%Hin. by eapply elem_of_np_sort_sorted.
  - exact Hnd.
  - exact Hin.
  - rewrite length_edge_indices, <- Hlen, length_unique_eq.
    rewrite sorted_edge_indices_Permutation. apply NoDup_all_edges.
Qed.

(** C5 (as stated) fails on a triangle list whose only row repeats a
    vertex: no two triangles share an edge, since there is one triangle,
    yet only two of its three index pairs are distinct. *)
Lemma edge_counts_counterexample :
  let self := {| points := [[0; 0]; [1; 0]]%R; n_dims := 2;
                 trilist := [(0, 0, 1)] |} in
  no_shared_edge (trilist self) ∧
  length (edge_indices self) = 3 ∧
  unique_edge_indicies self = [(0, 0); (0, 1)] ∧
  length (unique_edge_indicies self) ≠ length (edge_indices self).
Proof.
  simpl. split_and!; try done.
  intros [|i] [|j] t1 t2 e Hij H1 H2; simplify_eq/=.
Qed.

(** *** Boundary triangles *)

Lemma count_cons e x l :
  count e (x :: l) = (if decide (x = e) then 1 else 0) + count e l.
Proof. unfold count. rewrite filter_cons. by destruct (decide (x = e)). Qed.

Lemma count_app e l k : count e (l ++ k) = count e l + count e k.
Proof. unfold count. by rewrite filter_app, length_app. Qed.

Lemma count_zero e l : count e l = 0 ↔ e ∉ l.
Proof.
  induction l as [|x l IH]; [by split; [intros _; apply not_elem_of_nil|]|].
  rewrite count_cons, not_elem_of_cons.
  destruct (decide (x = e)) as [->|Hne].
  - split; [lia | by intros [? _]].
  - rewrite <- IH. split; [by intros ?; split; [congruence|lia] | by intros [_ ?]].
Qed.

Lemma count_Permutation e l k : l ≡ₚ k → count e l = count e k.
Proof. intros Hp. unfold count. by rewrite Hp. Qed.

Lemma count_NoDup e l :
  NoDup l → count e l = if decide (e ∈ l) then 1 else 0.
Proof.
  induction 1 as [|x l Hx Hl IH]; [done|]. rewrite count_cons, IH.
  destruct (decide (x = e)) as [->|Hne].
  - rewrite decide_False, decide_True by (done || by left). done.
  - destruct (decide (e ∈ l)).
    + by rewrite decide_True by by right.
    + rewrite decide_False; [done|]. by intros [->|?]%elem_of_cons.
Qed.

Lemma index_Some e l p : index e l = Some p → l !! p = Some e.
Proof.
  revert p. induction l as [|x l IH]; intros p; [done|]. simpl.
  destruct (decide (x = e)) as [->|Hne]; [by intros [= <-]|].
  destruct (index e l) as [q|]; [|done]. intros [= <-]. by apply IH.
Qed.

Lemma index_is_Some e l : e ∈ l → is_Some (index e l).
Proof.
  induction l as [|x l IH]; [by intros ?%elem_of_nil|]. simpl.
  destruct (decide (x = e)) as [->|Hne]; [by eexists|].
  intros [->|[q Hq]%IH]%elem_of_cons; [done|]. rewrite Hq. by eexists.
Qed.

Lemma count_one_unique e l p q :
  count e l = 1 → l !! p = Some e → l !! q = Some e → p = q.
Proof.
  revert p q. induction l as [|x l IH]; intros p q; [done|].
  rewrite count_cons. destruct (decide (x = e)) as [->|Hne].
  - intros Hc. assert (He : e ∉ l) by (apply count_zero; lia).
    destruct p as [|p], q as [|q]; simpl; try done.
    all: intros H1 H2; exfalso; apply He; by eapply list_elem_of_lookup_2.
  - intros Hc. destruct p as [|p], q as [|q]; simpl; try congruence.
    intros H1 H2. f_equal. by apply IH.
Qed.

(** position [p] of three stacked blocks of [n] rows belongs to row
    [p mod n] of one of the blocks *)
Lemma lookup_blocks {A B} (f g h : A → B) (l : list A) p y :
  (map f l ++ map g l ++ map h l) !! p = Some y →
  ∃ x, l !! (p mod length l) = Some x ∧ (y = f x ∨ y = g x ∨ y = h x).
Proof.
  intros Hp. pose proof (lookup_lt_Some _ _ _ Hp) as Hlt.
  rewrite !length_app, !length_map in Hlt.
  rewrite !map_fmap in Hp.
  apply lookup_app_Some in Hp as [Hp|[Hge Hp]].
  - apply list_lookup_fmap_Some in Hp as (x & -> & Hx).
    pose proof (lookup_lt_Some _ _ _ Hx).
    exists x. rewrite Nat.mod_small by done. auto.
  - rewrite length_fmap in Hge, Hp.
    apply lookup_app_Some in Hp as [Hp|[Hge' Hp]].
    + apply list_lookup_fmap_Some in Hp as (x & -> & Hx).
      pose proof (lookup_lt_Some _ _ _ Hx).
      exists x. split; [|auto].
      rewrite <- (Nat.mod_unique p (length l) 1 (p - length l)); [done|lia|lia].
    + rewrite length_fmap in Hge', Hp.
      apply list_lookup_fmap_Some in Hp as (x & -> & Hx).
      pose proof (lookup_lt_Some _ _ _ Hx).
      exists x. split; [|auto].
      rewrite <- (Nat.mod_unique p (length l) 2 (p - length l - length l));
        [done|lia|lia].
Qed.

Lemma blocks_lookup {A B} (f g h : A → B) (l : list A) i x y :
  l !! i = Some x → y = f x ∨ y = g x ∨ y = h x →
  ∃ p, (map f l ++ map g l ++ map h l) !! p = Some y ∧ p mod length l = i.
Proof.
  intros Hx Hy. pose proof (lookup_lt_Some _ _ _ Hx) as Hlt.
  rewrite !map_fmap. destruct Hy as [->|[->| ->]].
  - exists i. split; [|by apply Nat.mod_small].
    apply lookup_app_l_Some. by rewrite list_lookup_fmap, Hx.
  - exists (length l + i). split.
    + rewrite lookup_app_r by (rewrite length_fmap; lia).
      rewrite length_fmap. replace (length l + i - length l) with i by lia.
      apply lookup_app_l_Some. by rewrite list_lookup_fmap, Hx.
    + symmetry. apply (Nat.mod_unique _ _ 1); lia.
  - exists (length l + length l + i). split.
    + rewrite lookup_app_r by (rewrite length_fmap; lia).
      rewrite lookup_app_r by (rewrite !length_fmap; lia).
      rewrite !length_fmap.
      replace (length l + length l + i - length l - length l) with i by lia.
      by rewrite list_lookup_fmap, Hx.
    + symmetry. apply (Nat.mod_unique _ _ 2); lia.
Qed.

Lemma elem_of_tri_edges e a b c :
  e ∈ tri_edges (a, b, c) ↔
  e = sort_row (a, b) ∨ e = sort_row (a, c) ∨ e = sort_row (b, c).
Proof.
  unfold tri_edges. rewrite !elem_of_cons, elem_of_nil. tauto.
Qed.

Lemma boundary_edges_blocks tl :
  boundary_edges tl =
    map (λ '(a, b, c), sort_row (a, b)) tl
    ++ map (λ '(a, b, c), sort_row (a, c)) tl
    ++ map (λ '(a, b, c), sort_row (b, c)) tl.
Proof.
  unfold boundary_edges, np_sort, cols01, cols02, cols12.
  rewrite !map_app, !map_map.
  f_equal; [|f_equal]; apply map_ext; by intros [[a b] c].
Qed.

Lemma boundary_edges_owner tl p e :
  boundary_edges tl !! p = Some e →
  ∃ t, tl !! (p mod length tl) = Some t ∧ e ∈ tri_edges t.
Proof.
  rewrite boundary_edges_blocks. intros ([[a b] c] & Ht & He)%lookup_blocks.
  exists (a, b, c). split; [done|]. by apply elem_of_tri_edges.
Qed.

Lemma boundary_edges_position tl i t e :
  tl !! i = Some t → e ∈ tri_edges t →
  ∃ p, boundary_edges tl !! p = Some e ∧ p mod length tl = i.
Proof.
  rewrite boundary_edges_blocks. intros Ht He. destruct t as [[a b] c].
  apply elem_of_tri_edges in He.
  by apply (blocks_lookup _ _ _ tl i (a, b, c)).
Qed.

Lemma multiplicity_boundary_edges e tl :
  count e (boundary_edges tl) = multiplicity e tl.
Proof. apply count_Permutation, boundary_edges_eq. Qed.

(** membership in the result of [boundary_tri_index] *)
Lemma elem_of_boundary_tri_index self i :
  i ∈ boundary_tri_index self ↔
  ∃ t e, trilist self !! i = Some t ∧ e ∈ tri_edges t ∧
         multiplicity e (trilist self) = 1.
Proof.
  unfold boundary_tri_index. fold (boundary_edges (trilist self)).
  set (tl := trilist self). set (edges := boundary_edges tl).
  rewrite elem_of_remove_dups, list_elem_of_omap. split.
  - intros (e & He & Hi). rewrite map_fmap in He.
    apply list_elem_of_fmap in He as ([e' k] & -> & Hek).
    apply list_elem_of_filter in Hek as [Hk Hek]. simpl in *. subst k.
    unfold Counter_items in Hek. rewrite map_fmap in Hek.
    apply list_elem_of_fmap in Hek as (e'' & [= <- Hc] & _).
    destruct (index e' edges) as [p|] eqn:Hp; simplify_eq/=.
    apply index_Some, boundary_edges_owner in Hp as (t & Ht & Het).
    exists t, e'. by rewrite <- multiplicity_boundary_edges.
  - intros (t & e & Ht & He & Hm).
    rewrite <- multiplicity_boundary_edges in Hm. fold edges in Hm.
    destruct (boundary_edges_position tl i t e Ht He) as (p & Hp & Hmod).
    fold edges in Hp.
    assert (Hin : e ∈ edges) by by eapply list_elem_of_lookup_2.
    destruct (index_is_Some e edges Hin) as [q Hq].
    assert (q = p) as ->.
    { eapply count_one_unique; [exact Hm | by apply index_Some | done]. }
    exists e. split.
    + rewrite map_fmap. apply list_elem_of_fmap. exists (e, 1). split; [done|].
      apply list_elem_of_filter. split; [done|].
      unfold Counter_items. rewrite map_fmap. apply list_elem_of_fmap.
      exists e. split; [by rewrite Hm|]. by apply elem_of_remove_dups.
    + rewrite Hq. simpl. by rewrite Hmod.
Qed.

Lemma multiplicity_cons e t tl :
  multiplicity e (t :: tl) = count e (tri_edges t) + multiplicity e tl.
Proof. unfold multiplicity. apply (count_app e (tri_edges t)). Qed.

Lemma multiplicity_n_owners e tl :
  Forall proper tl → multiplicity e tl = n_owners e tl.
Proof.
  induction 1 as [|t tl Ht Htl IH]; [done|].
  rewrite multiplicity_cons, IH. unfold n_owners. rewrite filter_cons.
  rewrite count_NoDup by by apply NoDup_tri_edges.
  by destruct (decide (e ∈ tri_edges t)).
Qed.

Lemma only_zero (l : list nat) : NoDup l → (∀ i, i ∈ l ↔ i = 0) → l = [0].
Proof.
  intros Hnd Hl. destruct l as [|x [|y l]].
  - exfalso. eapply not_elem_of_nil. by apply Hl.
  - f_equal. apply Hl. by left.
  - assert (x = 0) as -> by (apply Hl; by left).
    assert (y = 0) as -> by (apply Hl; right; by left).
    apply NoDup_cons in Hnd as [Hx _]. exfalso. apply Hx. by left.
Qed.

Lemma NoDup_boundary_tri_index self : NoDup (boundary_tri_index self).
Proof. apply NoDup_remove_dups. Qed.

Lemma boundary_single self t :
  trilist self = [t] → proper t → boundary_tri_index self = [0].
Proof.
  intros Htl Ht. apply only_zero; [apply NoDup_boundary_tri_index|].
  intros i. rewrite elem_of_boundary_tri_index, Htl. split.
  - intros (t' & e & Hi & _). by destruct i.
  - intros ->. destruct t as [[a b] c].
    exists (a, b, c), (sort_row (a, b)). split_and!; [done | by left |].
    rewrite multiplicity_cons.
    rewrite count_NoDup by by apply NoDup_tri_edges.
    rewrite decide_True by by left. done.
Qed.

Lemma boundary_closed self :
  (∀ t e, t ∈ trilist self → e ∈ tri_edges t →
     multiplicity e (trilist self) = 2) →
  boundary_tri_index self = [].
Proof.
  intros Hclosed. apply elem_of_nil_inv. intros i.
  rewrite elem_of_boundary_tri_index. intros (t & e & Ht & He & Hm).
  rewrite (Hclosed t e) in Hm; [done | by eapply list_elem_of_lookup_2 | done].
Qed.

(** What [boundary_tri_index] computes: it selects, each once, exactly
    those triangles owning at least one edge that, as an unordered endpoint
    pair, occurs exactly once among the [3 * n_tris] edges of the mesh; when
    every triangle has three distinct vertices this is the number of
    triangles the edge occurs in.  A single triangle with three distinct
    vertices is returned, and a mesh in which every edge occurs exactly twice
    gives an empty selection. *)
Theorem boundary_tri_index_selects (self : TriMesh) :
  NoDup (boundary_tri_index self) ∧
  (∀ i, i ∈ boundary_tri_index self ↔
     ∃ t e, trilist self !! i = Some t ∧ e ∈ tri_edges t ∧
            multiplicity e (trilist self) = 1) ∧
  (Forall proper (trilist self) →
   ∀ e, multiplicity e (trilist self) = n_owners e (trilist self)) ∧
  (∀ t, trilist self = [t] → proper t → boundary_tri_index self = [0]) ∧
  ((∀ t e, t ∈ trilist self → e ∈ tri_edges t →
      multiplicity e (trilist self) = 2) →
   boundary_tri_index self = []).
Proof.
  split_and!.
  - apply NoDup_boundary_tri_index.
  - apply elem_of_boundary_tri_index.
  - intros Hp e. by apply multiplicity_n_owners.
  - apply boundary_single.
  - apply boundary_closed.
Qed.

Lemma boundary_tri_index_selects_witness :
  boundary_tri_index
    {| points := [[0; 0; 0]; [1; 0; 0]; [0; 1; 0]; [0; 0; 1]]%R; n_dims := 3;
       trilist := [(0, 1, 2); (0, 1, 3); (0, 2, 3); (1, 2, 3)] |} = [] ∧
  boundary_tri_index
    {| points := [[0; 0]; [3; 0]; [0; 4]]%R; n_dims := 2;
       trilist := [(0, 1, 2)] |} = [0].
Proof.
  split.
  - apply boundary_tri_index_selects. simpl. intros t e Ht He.
    repeat (apply elem_of_cons in Ht as [->|Ht]);
      try (by apply elem_of_nil in Ht);
      repeat (apply elem_of_cons in He as [->|He]);
      try (by apply elem_of_nil in He); reflexivity.
  - apply (boundary_tri_index_selects _) with (t := (0, 1, 2));
      [reflexivity | by repeat split].
Defined.

(** C3: [boundary_tri_index] is documented to tell, for each triangle,
    whether any of its edges is not also an edge of another triangle.  On
    the three-point mesh with the rows (0, 0, 1) and (0, 0, 2) the edge
    {0, 1} of triangle 0 is an edge of no other triangle (and likewise
    {0, 2} of triangle 1), so both triangles are to be selected; on the
    three-point mesh whose single row is (0, 0, 0) that one triangle is to
    be selected.  The method returns an empty selection on both: it counts
    occurrences among the [3 * n_tris] sorted pairs, and the pair {0, 1} is
    listed twice by the one triangle that has it. *)
Theorem boundary_tri_index_degenerate :
  let pts := [[0; 0]; [3; 0]; [0; 4]]%R in
  (let self := {| points := pts; n_dims := 2;
                  trilist := [(0, 0, 1); (0, 0, 2)] |} in
   in_range self ∧
   (0, 1) ∈ tri_edges (0, 0, 1) ∧ ((0, 1) ∉ tri_edges (0, 0, 2)) ∧
   (0, 2) ∈ tri_edges (0, 0, 2) ∧ ((0, 2) ∉ tri_edges (0, 0, 1)) ∧
   n_owners (0, 1) (trilist self) = 1 ∧
   n_owners (0, 2) (trilist self) = 1 ∧
   multiplicity (0, 1) (trilist self) = 2 ∧
   multiplicity (0, 2) (trilist self) = 2 ∧
   boundary_tri_index self = []) ∧
  (let self := {| points := pts; n_dims := 2;
                  trilist := [(0, 0, 0)] |} in
   in_range self ∧
   n_tris self = 1 ∧
   (0, 0) ∈ tri_edges (0, 0, 0) ∧
   n_owners (0, 0) (trilist self) = 1 ∧
   multiplicity (0, 0) (trilist self) = 3 ∧
   boundary_tri_index self = []).
Proof.
  assert (Hin : ∀ tl, Forall (λ t, Forall (λ v, v < 3) (verts t)) tl →
            in_range {| points := [[0; 0]; [3; 0]; [0; 4]]%R; n_dims := 2;
                        trilist := tl |}) by done.
  assert (H1 : (0, 1) ∉ [(0, 0); (0, 2); (0, 2)]).
  { intros H. repeat (apply elem_of_cons in H as [H|H]; [discriminate|]).
    by apply elem_of_nil in H. }
  assert (H2 : (0, 2) ∉ [(0, 0); (0, 1); (0, 1)]).
  { intros H. repeat (apply elem_of_cons in H as [H|H]; [discriminate|]).
    by apply elem_of_nil in H. }
  simpl. split; split_and!; try reflexivity; try done.
  - apply Hin. unfold verts. repeat constructor.
  - right. by left.
  - right. by left.
  - apply Hin. unfold verts. repeat constructor.
  - by left.
Qed.

(** *** Areas *)

Section Areas.
Local Open Scope R_scope.

Lemma take_points_in_range pts tl :
  Forall (λ t, Forall (λ v, (v < length pts)%nat) (verts t)) tl →
  ∃ t, take_points pts tl = Ok t ∧
       Forall2 (λ '(a, b, c) '(pa, pb, pc),
                  pts !! a = Some pa ∧ pts !! b = Some pb ∧ pts !! c = Some pc)
               tl t.
Proof.
  induction 1 as [|[[a b] c] tl Hv Htl (t & Ht & Hall)].
  { exists []. split; [done | constructor]. }
  apply Forall_cons in Hv as [Ha Hv]. apply Forall_cons in Hv as [Hb Hv].
  apply Forall_cons in Hv as [Hc _].
  apply lookup_lt_is_Some in Ha as [pa Ha], Hb as [pb Hb], Hc as [pc Hc].
  exists ((pa, pb, pc) :: t). split.
  - simpl. unfold row_at. by rewrite Ha, Hb, Hc, Ht.
  - by constructor.
Qed.

Lemma take_points_raises pts tl e :
  take_points pts tl = Raise e → e = IndexError.
Proof.
  induction tl as [|[[a b] c] tl IH]; [done|]. simpl. unfold row_at.
  destruct (pts !! a), (pts !! b), (pts !! c), (take_points pts tl);
    intros [= <-]; auto.
Qed.

Lemma norm_nonneg v : 0 <= norm v.
Proof. apply sqrt_pos. Qed.

Lemma cross2_coords x1 y1 x2 y2 : cross2 [x1; y1] [x2; y2] = x1 * y2 - y1 * x2.
Proof. reflexivity. Qed.

Lemma sqrt_144 : sqrt 144 = 12.
Proof. replace 144 with (12 * 12) by lra. apply sqrt_square. lra. Qed.

Lemma square_144 x : x * x = 144 → x = 12 ∨ x = -12.
Proof.
  intros Hx. assert (H : (x - 12) * (x + 12) = 0) by lra.
  apply Rmult_integral in H as [H|H]; [left | right]; lra.
Qed.

(** Lagrange's identity at the vertex carrying the right angle: the squared
    cross product [t] is the product of the squared legs minus the squared
    dot product, whichever vertex the edge vectors start from. *)
Ltac lagrange t :=
  match goal with
  | Hd : ?d = 0, Hp : ?p = 9, Hq : ?q = 16 |- _ =>
      assert (t = 144) by
        (transitivity (p * q - d * d); [ring | rewrite Hd, Hp, Hq; ring])
  | Hd : ?d = 0, Hp : ?p = 16, Hq : ?q = 9 |- _ =>
      assert (t = 144) by
        (transitivity (p * q - d * d); [ring | rewrite Hd, Hp, Hq; ring])
  end.

Lemma right_triangle_area_2d ax ay bx by' cx cy :
  right_3_4 [ax; ay] [bx; by'] [cx; cy] →
  let area := cross2 (vsub [bx; by'] [ax; ay]) (vsub [cx; cy] [ax; ay]) * 0.5 in
  area = 6 ∨ area = -6.
Proof.
  unfold right_3_4, right_at, dot, vsub, vsum, cross2. simpl.
  set (x := (bx - ax) * (cy - ay) - (by' - ay) * (cx - ax)).
  intros H. assert (Hx : x * x = 144).
  { unfold x. destruct H as [[Hd [[Hp Hq]|[Hp Hq]]]
                            |[[Hd [[Hp Hq]|[Hp Hq]]]|[Hd [[Hp Hq]|[Hp Hq]]]]].
    all: match goal with |- ?t = 144 => lagrange t end; assumption. }
  apply square_144 in Hx as [-> | ->]; [left | right]; lra.
Qed.

Lemma right_triangle_area_3d ax ay az bx by' bz cx cy cz :
  right_3_4 [ax; ay; az] [bx; by'; bz] [cx; cy; cz] →
  norm (cross3 (vsub [bx; by'; bz] [ax; ay; az])
               (vsub [cx; cy; cz] [ax; ay; az])) * 0.5 = 6.
Proof.
  unfold right_3_4, right_at, dot, vsub, vsum, norm, cross3. simpl.
  intros H.
  match goal with |- sqrt ?t * _ = _ => assert (Ht : t = 144) end.
  { destruct H as [[Hd [[Hp Hq]|[Hp Hq]]]
                  |[[Hd [[Hp Hq]|[Hp Hq]]]|[Hd [[Hp Hq]|[Hp Hq]]]]].
    all: match goal with |- ?t = 144 => lagrange t end; assumption. }
  rewrite Ht, sqrt_144. lra.
Qed.

Lemma tri_areas_rows self (area : list R → list R → R) i a b c pa pb pc t :
  Forall2 (λ '(a, b, c) '(pa, pb, pc),
             points self !! a = Some pa ∧ points self !! b = Some pb ∧
             points self !! c = Some pc) (trilist self) t →
  trilist self !! i = Some (a, b, c) →
  points self !! a = Some pa → points self !! b = Some pb →
  points self !! c = Some pc →
  map (λ '(ij, ik), area ij ik)
      (map (λ '(pa, pb, pc), (vsub pb pa, vsub pc pa)) t) !! i
  = Some (area (vsub pb pa) (vsub pc pa)).
Proof.
  intros Hall Hi Ha Hb Hc.
  destruct (Forall2_lookup_l _ _ _ _ _ Hall Hi) as ([[qa qb] qc] & Ht & H).
  destruct H as (Ha' & Hb' & Hc'). simplify_eq.
  rewrite !map_fmap, !list_lookup_fmap, Ht. done.
Qed.

Lemma tri_areas_2d self :
  in_range self → n_dims self = 2%nat →
  ∃ areas,
    tri_areas self = Ok areas ∧ length areas = n_tris self ∧
    ∀ i a b c pa pb pc,
      trilist self !! i = Some (a, b, c) →
      points self !! a = Some pa → points self !! b = Some pb →
      points self !! c = Some pc →
      areas !! i = Some (cross2 (vsub pb pa) (vsub pc pa) * 0.5).
Proof.
  intros Hr Hd. destruct (take_points_in_range _ _ Hr) as (t & Ht & Hall).
  unfold tri_areas. rewrite Ht, Hd. simpl. eexists. split_and!; [done | |].
  - rewrite !length_map. symmetry. by eapply Forall2_length.
  - intros. by eapply (tri_areas_rows self (λ ij ik, cross2 ij ik * 0.5)).
Qed.

Lemma tri_areas_3d self :
  in_range self → n_dims self = 3%nat →
  ∃ areas,
    tri_areas self = Ok areas ∧ length areas = n_tris self ∧
    Forall (λ x, 0 <= x) areas ∧
    ∀ i a b c pa pb pc,
      trilist self !! i = Some (a, b, c) →
      points self !! a = Some pa → points self !! b = Some pb →
      points self !! c = Some pc →
      areas !! i = Some (norm (cross3 (vsub pb pa) (vsub pc pa)) * 0.5).
Proof.
  intros Hr Hd. destruct (take_points_in_range _ _ Hr) as (t & Ht & Hall).
  unfold tri_areas. rewrite Ht, Hd. simpl. eexists. split_and!; [done | | |].
  - rewrite !length_map. symmetry. by eapply Forall2_length.
  - apply Forall_forall. intros x. rewrite map_fmap.
    intros ([ij ik] & -> & _)%list_elem_of_fmap.
    pose proof (norm_nonneg (cross3 ij ik)). lra.
  - intros. by eapply (tri_areas_rows self (λ ij ik, norm (cross3 ij ik) * 0.5)).
Qed.

Lemma tri_areas_other self :
  n_dims self ≠ 2%nat → n_dims self ≠ 3%nat →
  (∃ e, tri_areas self = Raise e) ∧
  (in_range self → tri_areas self = Raise ValueError).
Proof.
  intros H2 H3. unfold tri_areas.
  destruct (Nat.eqb_spec (n_dims self) 2); [done|].
  destruct (Nat.eqb_spec (n_dims self) 3); [done|]. split.
  - destruct (take_points _ _); eauto.
  - intros Hr. destruct (take_points_in_range _ _ Hr) as (t & -> & _). done.
Qed.

(** C7: for each triangle (A, B, C), [tri_areas] returns half the cross
    product of the edge vectors B - A and C - A: in 2D the signed scalar
    cross product, whose sign flips with the winding order; in 3D the norm
    of the cross product, which is not negative; for any other
    dimensionality it raises [ValueError].  For a planar right triangle
    with legs of length 3 and 4 the area is 6 (or -6 in 2D, depending on the
    winding). *)
Theorem tri_areas_half_cross :
  (∀ self, in_range self → n_dims self = 2%nat →
     ∃ areas,
       tri_areas self = Ok areas ∧ length areas = n_tris self ∧
       ∀ i a b c pa pb pc,
         trilist self !! i = Some (a, b, c) →
         points self !! a = Some pa → points self !! b = Some pb →
         points self !! c = Some pc →
         areas !! i = Some (cross2 (vsub pb pa) (vsub pc pa) * 0.5)) ∧
  (∀ u v, cross2 v u * 0.5 = - (cross2 u v * 0.5)) ∧
  (∀ self, in_range self → n_dims self = 3%nat →
     ∃ areas,
       tri_areas self = Ok areas ∧ length areas = n_tris self ∧
       Forall (λ x, 0 <= x) areas ∧
       ∀ i a b c pa pb pc,
         trilist self !! i = Some (a, b, c) →
         points self !! a = Some pa → points self !! b = Some pb →
         points self !! c = Some pc →
         areas !! i = Some (norm (cross3 (vsub pb pa) (vsub pc pa)) * 0.5)) ∧
  (∀ self, n_dims self ≠ 2%nat → n_dims self ≠ 3%nat →
     (∃ e, tri_areas self = Raise e) ∧
     (in_range self → tri_areas self = Raise ValueError)) ∧
  (∀ ax ay bx by' cx cy,
     right_3_4 [ax; ay] [bx; by'] [cx; cy] →
     ∃ area,
       tri_areas {| points := [[ax; ay]; [bx; by']; [cx; cy]]; n_dims := 2;
                    trilist := [(0, 1, 2)%nat] |} = Ok [area] ∧
       (area = 6 ∨ area = -6)) ∧
  (∀ ax ay az bx by' bz cx cy cz,
     right_3_4 [ax; ay; az] [bx; by'; bz] [cx; cy; cz] →
     tri_areas {| points := [[ax; ay; az]; [bx; by'; bz]; [cx; cy; cz]];
                  n_dims := 3; trilist := [(0, 1, 2)%nat] |} = Ok [6]).
Proof.
  split_and!.
  - apply tri_areas_2d.
  - intros u v. unfold cross2. ring.
  - apply tri_areas_3d.
  - apply tri_areas_other.
  - intros * H. eexists. split; [reflexivity|].
    by apply right_triangle_area_2d.
  - intros * H. unfold tri_areas. simpl. do 2 f_equal.
    by apply right_triangle_area_3d.
Qed.

Lemma tri_areas_half_cross_witness :
  ∃ area,
    tri_areas {| points := [[0; 0]; [3; 0]; [0; 4]]; n_dims := 2;
                 trilist := [(0, 1, 2)%nat] |} = Ok [area] ∧
    (area = 6 ∨ area = -6).
Proof.
  apply tri_areas_half_cross. left.
  unfold right_at, dot, vsub, vsum. simpl. split; [lra | left; split; lra].
Defined.

(** the two windings of one right triangle with legs 3 and 4, and the same
    triangle in space *)
Lemma tri_areas_3_4_counterclockwise :
  tri_areas {| points := [[0; 0]; [3; 0]; [0; 4]]; n_dims := 2;
               trilist := [(0, 1, 2)%nat] |} = Ok [6].
Proof. unfold tri_areas, cross2. simpl. do 2 f_equal. lra. Qed.

Lemma tri_areas_3_4_clockwise :
  tri_areas {| points := [[0; 0]; [3; 0]; [0; 4]]; n_dims := 2;
               trilist := [(0, 2, 1)%nat] |} = Ok [-6].
Proof. unfold tri_areas, cross2. simpl. do 2 f_equal. lra. Qed.
End Areas.

(** *** Masking: the array computations *)

Lemma filter_ext_elem {A} (P Q : A → Prop)
    `{∀ x, Decision (P x)} `{∀ x, Decision (Q x)} (l : list A) :
  (∀ x, x ∈ l → (P x ↔ Q x)) → filter P l = filter Q l.
Proof.
  induction l as [|x l IH]; intros Hl; [done|]. rewrite !filter_cons.
  rewrite IH by (intros; apply Hl; by right).
  destruct (decide (P x)) as [HP|HP], (decide (Q x)) as [HQ|HQ]; try done.
  - exfalso. apply HQ, Hl; [by left | done].
  - exfalso. apply HP, Hl; [by left | done].
Qed.

Lemma elem_of_flatten v tl : v ∈ flatten tl ↔ ∃ t, t ∈ tl ∧ v ∈ verts t.
Proof.
  induction tl as [|t' tl IH].
  - split; [by intros ?%elem_of_nil | by intros (t & ?%elem_of_nil & _)].
  - change (flatten (t' :: tl)) with (verts t' ++ flatten tl).
    rewrite elem_of_app, IH. split.
    + intros [Hv|(t & Ht & Hv)]; [exists t' | exists t]; split; try done.
      * by left.
      * by right.
    + intros (t & [->|Ht]%elem_of_cons & Hv); [by left | right; eauto].
Qed.

Lemma elem_of_nonzero i mask : i ∈ nonzero mask ↔ mask !! i = Some true.
Proof.
  unfold nonzero. rewrite list_elem_of_filter, elem_of_seq. split; [by intros []|].
  intros Hi. split; [done|]. apply lookup_lt_Some in Hi. lia.
Qed.

Lemma elem_of_setdiff1d x a b : x ∈ setdiff1d a b ↔ x ∈ a ∧ x ∉ b.
Proof.
  unfold setdiff1d.
  rewrite list_elem_of_filter, merge_sort_Permutation, elem_of_remove_dups. tauto.
Qed.

Lemma length_clear_at idx mask : length (clear_at idx mask) = length mask.
Proof.
  induction idx as [|i idx IH]; [done|]. simpl. by rewrite length_insert.
Qed.

Lemma lookup_clear_at idx mask i :
  clear_at idx mask !! i =
    if decide (i ∈ idx) then (λ _, false) <$> mask !! i else mask !! i.
Proof.
  induction idx as [|j idx IH].
  { rewrite decide_False; [done | apply not_elem_of_nil]. }
  change (clear_at (j :: idx) mask) with (<[j:=false]> (clear_at idx mask)).
  destruct (decide (j = i)) as [->|Hne].
  - rewrite decide_True by by left.
    destruct (decide (i < length mask)) as [Hlt|Hge].
    + rewrite list_lookup_insert_eq by by rewrite length_clear_at.
      apply lookup_lt_is_Some in Hlt as [b ->]. done.
    + rewrite list_insert_ge by (rewrite length_clear_at; lia).
      rewrite IH, lookup_ge_None_2 by lia. by destruct (decide _).
  - rewrite list_lookup_insert_ne by done. rewrite IH.
    destruct (decide (i ∈ idx)).
    + by rewrite decide_True by by right.
    + rewrite decide_False; [done|]. by intros [->|?]%elem_of_cons.
Qed.

Lemma elem_of_mask_adjacency_array t mask tl :
  t ∈ mask_adjacency_array mask tl ↔
  t ∈ tl ∧ ∀ v, v ∈ verts t → mask !! v ≠ Some false.
Proof.
  unfold mask_adjacency_array. rewrite list_elem_of_filter, Forall_forall. tauto.
Qed.

(** an entry of the recomputed mask is [True] exactly for a selected point
    that a surviving triangle uses *)
Lemma isolated_mask_true mask tl i :
  isolated_mask_of mask tl !! i = Some true ↔
  mask !! i = Some true ∧ i ∈ flatten (mask_adjacency_array mask tl).
Proof.
  unfold isolated_mask_of. rewrite lookup_clear_at.
  destruct (decide _) as [Hin|Hnin].
  - apply elem_of_setdiff1d in Hin as [_ Hnu]. split.
    + destruct (mask !! i); simpl; congruence.
    + by intros [_ ?].
  - split.
    + intros Hi. split; [done|].
      destruct (decide (i ∈ flatten (mask_adjacency_array mask tl))); [done|].
      exfalso. apply Hnin, elem_of_setdiff1d. split; [|done].
      by apply elem_of_nonzero.
    + by intros [? _].
Qed.

Lemma isolated_mask_false mask tl i :
  isolated_mask_of mask tl !! i = Some false ↔
  mask !! i = Some false ∨
  (mask !! i = Some true ∧ i ∉ flatten (mask_adjacency_array mask tl)).
Proof.
  unfold isolated_mask_of. rewrite lookup_clear_at.
  destruct (decide _) as [Hin|Hnin].
  - apply elem_of_setdiff1d in Hin as [Hnz%elem_of_nonzero Hnu].
    rewrite Hnz. simpl. split; [by right | done].
  - split; [by left|]. intros [Hf|[Ht Hnu]]; [done|].
    exfalso. apply Hnin, elem_of_setdiff1d. split; [|done].
    by apply elem_of_nonzero.
Qed.

Lemma length_isolated_mask mask tl :
  length (isolated_mask_of mask tl) = length mask.
Proof. apply length_clear_at. Qed.

(** masking with the recomputed mask keeps the same triangles *)
Lemma mask_adjacency_array_isolated mask tl :
  mask_adjacency_array (isolated_mask_of mask tl) tl
  = mask_adjacency_array mask tl.
Proof.
  unfold mask_adjacency_array at 1 2. apply filter_ext_elem.
  intros t Ht. rewrite !Forall_forall. split.
  - intros Hkeep v Hv Hf. apply (Hkeep v Hv).
    apply isolated_mask_false. by left.
  - intros Hkeep v Hv [Hf|[_ Hnu]]%isolated_mask_false.
    + by apply (Hkeep v Hv).
    + apply Hnu, elem_of_flatten. exists t. split; [|done].
      by apply elem_of_mask_adjacency_array.
Qed.

Lemma used_iff_isolated_mask mask tl k :
  k < length mask →
  k ∈ flatten (mask_adjacency_array mask tl) ↔
  isolated_mask_of mask tl !! k = Some true.
Proof.
  intros Hk. rewrite isolated_mask_true. split; [|by intros [_ ?]].
  intros Hu. split; [|done].
  apply elem_of_flatten in Hu as (t & [_ Hkeep]%elem_of_mask_adjacency_array & Hv).
  apply lookup_lt_is_Some in Hk as [[|] Hb]; [done|].
  by destruct (Hkeep k Hv).
Qed.

Lemma count_true_snoc mask b :
  count_true (mask ++ [b]) = count_true mask + (if b then 1 else 0).
Proof.
  unfold count_true. rewrite filter_app, length_app. by destruct b.
Qed.

Lemma rank_count_true used mask v :
  (∀ k, k < v → k ∈ used ↔ mask !! k = Some true) →
  v ≤ length mask →
  rank used v = count_true (take v mask).
Proof.
  unfold rank. induction v as [|v IH]; intros Hused Hv.
  { by rewrite take_0. }
  destruct (lookup_lt_is_Some_2 mask v) as [b Hb]; [lia|].
  rewrite seq_S, filter_app, length_app, (take_S_r _ _ b), count_true_snoc by done.
  rewrite IH by (intros; try apply Hused; lia). f_equal. simpl.
  rewrite filter_cons, filter_nil.
  destruct (decide (v ∈ used)) as [Hu|Hu].
  - apply Hused in Hu; [|lia]. by simplify_eq.
  - destruct b; [|done]. exfalso. apply Hu, Hused; [lia | done].
Qed.

Lemma count_true_cons b mask :
  count_true (b :: mask) = (if b then 1 else 0) + count_true mask.
Proof. unfold count_true. rewrite filter_cons. by destruct b. Qed.

Lemma length_select_rows {A} (rows : list A) mask :
  length rows = length mask →
  length (select_rows rows mask) = count_true mask.
Proof.
  revert mask. induction rows as [|r rows IH]; intros [|b mask] Hlen;
    simplify_eq/=; [done|].
  rewrite count_true_cons. destruct b; simpl; by rewrite IH.
Qed.

Lemma count_true_position mask j :
  j < count_true mask →
  ∃ p, mask !! p = Some true ∧ count_true (take p mask) = j.
Proof.
  revert j. induction mask as [|b mask IH]; intros j.
  { unfold count_true. simpl. lia. }
  rewrite count_true_cons. destruct b.
  - destruct j as [|j]; [by exists 0|]. intros Hj.
    destruct (IH j) as (p & Hp & Hc); [lia|].
    exists (S p). split; [done|].
    change (take (S p) (true :: mask)) with (true :: take p mask).
    by rewrite count_true_cons, Hc.
  - intros Hj. destruct (IH j) as (p & Hp & Hc); [done|].
    exists (S p). split; [done|].
    change (take (S p) (false :: mask)) with (false :: take p mask).
    by rewrite count_true_cons, Hc.
Qed.

Lemma count_true_take_lt mask p :
  mask !! p = Some true → count_true (take p mask) < count_true mask.
Proof.
  intros Hp. rewrite <- (take_drop (S p) mask) at 2.
  rewrite (take_S_r _ _ true) by done.
  unfold count_true. rewrite !filter_app, !length_app. simpl. lia.
Qed.

Lemma lookup_select_rows {A} (rows : list A) mask v :
  length rows = length mask → mask !! v = Some true →
  select_rows rows mask !! count_true (take v mask) = rows !! v.
Proof.
  revert mask v. induction rows as [|r rows IH]; intros [|b mask] v Hlen Hv;
    simplify_eq/=; try done.
  destruct v as [|v].
  - simplify_eq/=. done.
  - change (take (S v) (b :: mask)) with (b :: take v mask).
    rewrite count_true_cons. destruct b; simpl; by apply IH.
Qed.

Lemma verts_reindex used a b c :
  verts (rank used a, rank used b, rank used c) = map (rank used) (verts (a, b, c)).
Proof. reflexivity. Qed.

Lemma elem_of_reindex t' tl :
  t' ∈ reindex_adjacency_array tl ↔
  ∃ t, t ∈ tl ∧ verts t' = map (rank (flatten tl)) (verts t).
Proof.
  unfold reindex_adjacency_array. rewrite map_fmap, list_elem_of_fmap. split.
  - intros ([[a b] c] & -> & Ht). by exists (a, b, c).
  - intros ([[a b] c] & Ht & Hv). exists (a, b, c). split; [|done].
    destruct t' as [[a' b'] c']. by simplify_eq/=.
Qed.

Section Masked.
Context {A : Type} (rows : list A) (mask : list bool) (tl : list tri).
Hypothesis mask_length : length mask = length rows.

Let used := flatten (mask_adjacency_array mask tl).
Let keep := isolated_mask_of mask tl.

(** the new index of a point that stays is its rank among the used ones *)
Lemma rank_used v :
  v < length mask → keep !! v = Some true →
  rank used v = count_true (take v keep) ∧
  rank used v < length (select_rows rows keep) ∧
  select_rows rows keep !! rank used v = rows !! v.
Proof.
  intros Hv Hkeep.
  assert (Hlen : length rows = length keep)
    by (unfold keep; by rewrite length_isolated_mask).
  assert (Hr : rank used v = count_true (take v keep)).
  { apply rank_count_true; [|lia]. intros k Hk.
    apply used_iff_isolated_mask. lia. }
  rewrite Hr, length_select_rows by done. split_and!; [done | |].
  - by apply count_true_take_lt.
  - by apply lookup_select_rows.
Qed.

Lemma masked_no_isolated j :
  j < length (select_rows rows keep) →
  ∃ t, t ∈ reindex_adjacency_array (mask_adjacency_array keep tl) ∧ j ∈ verts t.
Proof.
  unfold keep at 2. rewrite mask_adjacency_array_isolated.
  rewrite length_select_rows
    by (unfold keep; by rewrite length_isolated_mask).
  intros (p & Hp & Hj)%count_true_position.
  pose proof (lookup_lt_Some _ _ _ Hp) as Hlt.
  unfold keep in Hlt. rewrite length_isolated_mask in Hlt.
  destruct (rank_used p Hlt Hp) as (Hr & _).
  pose proof Hp as [_ Hu]%isolated_mask_true.
  apply elem_of_flatten in Hu as ([[a b] c] & Ht & Hv).
  exists (rank used a, rank used b, rank used c). split.
  - apply elem_of_reindex. by exists (a, b, c).
  - rewrite verts_reindex, map_fmap, <- Hj, <- Hr. by apply list_elem_of_fmap_2.
Qed.

Lemma masked_in_range :
  Forall (λ t, Forall (λ v, v < length rows) (verts t)) tl →
  Forall (λ t, Forall (λ v, v < length (select_rows rows keep)) (verts t))
    (reindex_adjacency_array (mask_adjacency_array keep tl)).
Proof.
  intros Hr. unfold keep at 2. rewrite mask_adjacency_array_isolated.
  apply Forall_forall. intros t' (t & Ht & Hv)%elem_of_reindex.
  rewrite Hv. apply Forall_forall. intros v'. rewrite map_fmap.
  intros (v & -> & Hvt)%list_elem_of_fmap.
  assert (Hlt : v < length mask).
  { rewrite mask_length. apply elem_of_mask_adjacency_array in Ht as [Ht _].
    rewrite Forall_forall in Hr. specialize (Hr t Ht).
    rewrite Forall_forall in Hr. by apply Hr. }
  apply rank_used; [done|]. apply used_iff_isolated_mask; [done|].
  apply elem_of_flatten. eauto.
Qed.
End Masked.

(** *** Masking: the method on the store *)

Lemma lookup_app_add {A} (h ext : list A) k :
  (h ++ ext) !! (length h + k) = ext !! k.
Proof. rewrite lookup_app_r by lia. f_equal. lia. Qed.

Lemma lookup_app_zero {A} (h ext : list A) : (h ++ ext) !! length h = ext !! 0.
Proof. rewrite <- (lookup_app_add h ext 0). f_equal. lia. Qed.

Lemma insert_app_add {A} (h ext : list A) k o :
  <[length h + k := o]> (h ++ ext) = h ++ <[k := o]> ext.
Proof. apply insert_app_r. Qed.

(** Running a method on a store [h] extended by explicitly known objects:
    reads of the objects of [h] named by the hypotheses, reads and writes of
    the new objects. *)
Ltac run_store Hself Hp Ht Hmask :=
  repeat (progress
    (rewrite ?Hself, ?Hp, ?Ht, ?Hmask,
       ?(lookup_app_l_Some _ _ _ _ Hself), ?(lookup_app_l_Some _ _ _ _ Hp),
       ?(lookup_app_l_Some _ _ _ _ Ht), ?(lookup_app_l_Some _ _ _ _ Hmask),
       <- ?app_assoc, ?length_app, <- ?Nat.add_assoc,
       ?lookup_app_add, ?lookup_app_zero, ?insert_app_add;
     simpl)).

Lemma mesh_at_Some h self m :
  mesh_at h self = Some m ↔
  ∃ p t, h !! self = Some (TriMeshObj p t) ∧
         h !! p = Some (NdFloat (n_dims m) (points m)) ∧
         h !! t = Some (NdInt3 (trilist m)).
Proof.
  unfold mesh_at. split.
  - destruct (h !! self) as [[| | |p t]|] eqn:Hself; try done.
    destruct (h !! p) as [[n rows| | |]|] eqn:Hp; try done.
    destruct (h !! t) as [[|tl | |]|] eqn:Ht; try done.
    intros [= <-]. by exists p, t.
  - intros (p & t & -> & -> & ->). by destruct m.
Qed.

(** what [from_mask] returns and the store it leaves, case by case *)
Lemma from_mask_run h self mask p t n_cols rows tl mk :
  h !! self = Some (TriMeshObj p t) →
  h !! p = Some (NdFloat n_cols rows) →
  h !! t = Some (NdInt3 tl) →
  h !! mask = Some (NdBool mk) →
  from_mask self mask h =
    if negb (length mk =? length rows) then (Raise ValueError, h)
    else if np_all mk then
      (Ok (length h + 2),
       h ++ [NdFloat n_cols rows; NdInt3 tl;
             TriMeshObj (length h) (length h + 1)])
    else
      let keep := isolated_mask_of mk tl in
      (Ok (length h + 2),
       h ++ [NdFloat n_cols rows; NdInt3 tl;
             TriMeshObj (length h + 5) (length h + 4);
             NdBool keep;
             NdInt3 (reindex_adjacency_array (mask_adjacency_array keep tl));
             NdFloat n_cols (select_rows rows keep)]).
Proof.
  intros Hself Hp Ht Hmask.
  unfold from_mask, _isolated_mask, copy, self_n_points, self_points,
    self_trilist, set_trilist, set_points, load_mesh, load_float, load_int3,
    load_bool.
  unfold mbind, M_bind, mret, M_ret, load, alloc, store_at, raise.
  run_store Hself Hp Ht Hmask.
  destruct (negb (length mk =? length rows)); [done|].
  run_store Hself Hp Ht Hmask.
  destruct (np_all mk); [done|].
  run_store Hself Hp Ht Hmask. done.
Qed.

Lemma np_all_true mask : np_all mask = true ↔ ∀ i b, mask !! i = Some b → b = true.
Proof.
  unfold np_all. rewrite forallb_forall. split.
  - intros H i b Hi. apply H, list_elem_of_In. by eapply list_elem_of_lookup_2.
  - intros H b [i Hi]%list_elem_of_In%list_elem_of_lookup. by eapply H.
Qed.

Lemma np_all_false mask : np_all mask = false ↔ ∃ i, mask !! i = Some false.
Proof.
  split.
  - intros Hf. destruct (decide (false ∈ mask)) as [Hin|Hnin].
    + by apply list_elem_of_lookup.
    + assert (np_all mask = true); [|congruence].
      apply np_all_true. intros i [|] Hi; [done|].
      exfalso. apply Hnin. by eapply list_elem_of_lookup_2.
  - intros [i Hi]. destruct (np_all mask) eqn:E; [|done].
    by rewrite np_all_true in E; apply E in Hi.
Qed.

Lemma mesh_at_app h ext self m :
  mesh_at h self = Some m → mesh_at (h ++ ext) self = Some m.
Proof.
  rewrite !mesh_at_Some. intros (p & t & Hself & Hp & Ht).
  exists p, t. split_and!; by apply lookup_app_l_Some.
Qed.

Lemma mesh_at_new h ext k kp kt n_cols rows tl :
  ext !! k = Some (TriMeshObj (length h + kp) (length h + kt)) →
  ext !! kp = Some (NdFloat n_cols rows) →
  ext !! kt = Some (NdInt3 tl) →
  mesh_at (h ++ ext) (length h + k)
  = Some {| points := rows; n_dims := n_cols; trilist := tl |}.
Proof.
  intros Hk Hkp Hkt. apply mesh_at_Some.
  exists (length h + kp), (length h + kt).
  rewrite !lookup_app_add. done.
Qed.

(** C9: for an all-true mask over the mesh's points, [from_mask] returns a
    new mesh whose points and triangle list are those of the original,
    unchanged and not renumbered; the only objects it creates are the copy
    (its two arrays and the instance), so nothing is recomputed. *)
Theorem from_mask_all_true (h : store) (self mask : loc) (m : TriMesh)
    (mk : list bool) :
  mesh_at h self = Some m →
  h !! mask = Some (NdBool mk) →
  length mk = n_points m →
  (∀ i b, mk !! i = Some b → b = true) →
  ∃ tm h' p t,
    from_mask self mask h = (Ok tm, h') ∧
    mesh_at h' tm = Some m ∧
    points <$> mesh_at h' tm = points <$> mesh_at h self ∧
    trilist <$> mesh_at h' tm = trilist <$> mesh_at h self ∧
    h' = h ++ [NdFloat (n_dims m) (points m); NdInt3 (trilist m);
               TriMeshObj p t].
Proof.
  intros Hm Hmask Hlen Hall. pose proof Hm as Hm'.
  apply mesh_at_Some in Hm as (p & t & Hself & Hp & Ht).
  rewrite (from_mask_run _ _ _ _ _ _ _ _ _ Hself Hp Ht Hmask).
  unfold n_points in Hlen. rewrite Hlen, Nat.eqb_refl. simpl.
  apply np_all_true in Hall. rewrite Hall.
  assert (Hnew : mesh_at
            (h ++ [NdFloat (n_dims m) (points m); NdInt3 (trilist m);
                   TriMeshObj (length h) (length h + 1)]) (length h + 2)
          = Some m).
  { rewrite <- (Nat.add_0_r (length h)) at 1.
    rewrite (mesh_at_new h _ 2 0 1 (n_dims m) (points m) (trilist m)) by done.
    by destruct m. }
  do 4 eexists. split_and!; [reflexivity | done | | | reflexivity].
  all: by rewrite Hnew, Hm'.
Qed.

(** C10: [from_mask] never mutates the mesh it is invoked on.  Whatever the
    mask (a subset, all true, or of the wrong length, which raises
    [ValueError] and leaves the store as it was), every object that existed
    before the call is unchanged after it, in particular the mesh, its two
    arrays and the mask; a returned mesh is a new instance with new
    arrays. *)
Theorem from_mask_preserves_self (h : store) (self mask : loc) (m : TriMesh)
    (mk : list bool) :
  mesh_at h self = Some m →
  h !! mask = Some (NdBool mk) →
  ∃ r h',
    from_mask self mask h = (r, h') ∧
    (∀ l o, h !! l = Some o → h' !! l = Some o) ∧
    mesh_at h' self = Some m ∧
    h' !! mask = Some (NdBool mk) ∧
    (length mk ≠ n_points m → r = Raise ValueError ∧ h' = h) ∧
    (length mk = n_points m →
       ∃ tm p t, r = Ok tm ∧ h' !! tm = Some (TriMeshObj p t) ∧
                 length h ≤ tm ∧ length h ≤ p ∧ length h ≤ t ∧
                 is_Some (mesh_at h' tm)).
Proof.
  intros Hm Hmask. pose proof Hm as Hm'.
  apply mesh_at_Some in Hm as (p & t & Hself & Hp & Ht).
  rewrite (from_mask_run _ _ _ _ _ _ _ _ _ Hself Hp Ht Hmask).
  unfold n_points.
  destruct (Nat.eqb_spec (length mk) (length (points m))) as [Hlen|Hlen]; simpl.
  - destruct (np_all mk); do 2 eexists; (split; [reflexivity|]).
    + split_and!; [by intros; apply lookup_app_l_Some | by apply mesh_at_app
                  | by apply lookup_app_l_Some | done |].
      intros _. exists (length h + 2), (length h), (length h + 1).
      split_and!; try lia; [done | by rewrite lookup_app_add |].
      rewrite <- (Nat.add_0_r (length h)) at 1.
      by rewrite (mesh_at_new h _ 2 0 1 (n_dims m) (points m) (trilist m)).
    + split_and!; [by intros; apply lookup_app_l_Some | by apply mesh_at_app
                  | by apply lookup_app_l_Some | done |].
      intros _. exists (length h + 2), (length h + 5), (length h + 4).
      split_and!; try lia; [done | by rewrite lookup_app_add |].
      by erewrite (mesh_at_new h _ 2 5 4).
  - do 2 eexists. split; [reflexivity|].
    split_and!; [done | done | done | done | done].
Qed.

(** C2: for every boolean mask of length [n_points] that deselects at least
    one point, [from_mask] returns a mesh all of whose points appear in at
    least one triangle of its triangle list.  The triangle list is the
    original one without the triangles referencing a removed point,
    renumbered; the points are the selected points that a surviving triangle
    uses, so a retained point orphaned by the dropped triangles is left out;
    the renumbered triangles refer to the same coordinates as before, and
    stay within the new points when the original indices were in range. *)
Theorem from_mask_no_isolated_point (h : store) (self mask : loc)
    (m : TriMesh) (mk : list bool) :
  mesh_at h self = Some m →
  h !! mask = Some (NdBool mk) →
  length mk = n_points m →
  (∃ i, mk !! i = Some false) →
  ∃ tm h' out keep,
    from_mask self mask h = (Ok tm, h') ∧
    mesh_at h' tm = Some out ∧
    no_isolated_point out ∧
    trilist out
      = reindex_adjacency_array (mask_adjacency_array mk (trilist m)) ∧
    (∀ t, t ∈ mask_adjacency_array mk (trilist m) ↔
          t ∈ trilist m ∧ ∀ v, v ∈ verts t → mk !! v ≠ Some false) ∧
    length keep = length mk ∧
    (∀ i, keep !! i = Some true ↔
          mk !! i = Some true ∧
          ∃ t, t ∈ mask_adjacency_array mk (trilist m) ∧ i ∈ verts t) ∧
    points out = select_rows (points m) keep ∧
    n_dims out = n_dims m ∧
    (∀ v, keep !! v = Some true →
          points out !! rank (flatten (mask_adjacency_array mk (trilist m))) v
          = points m !! v) ∧
    (in_range m → in_range out).
Proof.
  intros Hm Hmask Hlen Hfalse.
  apply mesh_at_Some in Hm as (p & t & Hself & Hp & Ht).
  rewrite (from_mask_run _ _ _ _ _ _ _ _ _ Hself Hp Ht Hmask).
  unfold n_points in Hlen. rewrite Hlen, Nat.eqb_refl. simpl.
  apply np_all_false in Hfalse. rewrite Hfalse.
  set (keep := isolated_mask_of mk (trilist m)).
  eexists _, _, _, keep. split; [reflexivity|]. split.
  { by erewrite (mesh_at_new h _ 2 5 4). }
  unfold no_isolated_point, in_range, n_points. simpl. split_and!.
  - intros j. by apply masked_no_isolated.
  - unfold keep. by rewrite mask_adjacency_array_isolated.
  - intros t'. apply elem_of_mask_adjacency_array.
  - unfold keep. by rewrite length_isolated_mask.
  - intros i. unfold keep. rewrite isolated_mask_true, elem_of_flatten. done.
  - done.
  - done.
  - intros v Hv. pose proof (lookup_lt_Some _ _ _ Hv) as Hlt.
    unfold keep in Hlt. rewrite length_isolated_mask in Hlt.
    by apply rank_used.
  - by apply masked_in_range.
Qed.

Lemma from_mask_no_isolated_point_witness :
  ∃ tm h' out,
    from_mask 2 3
      [NdFloat 2 [[0; 0]; [1; 0]; [0; 1]; [1; 1]; [2; 2]]%R;
       NdInt3 [(0, 1, 2); (1, 3, 2)]; TriMeshObj 0 1;
       NdBool [true; true; true; false; true]] = (Ok tm, h') ∧
    mesh_at h' tm = Some out ∧
    no_isolated_point out ∧
    trilist out = [(0, 1, 2)] ∧
    points out = [[0; 0]; [1; 0]; [0; 1]]%R.
Proof.
  destruct (from_mask_no_isolated_point
              [NdFloat 2 [[0; 0]; [1; 0]; [0; 1]; [1; 1]; [2; 2]]%R;
               NdInt3 [(0, 1, 2); (1, 3, 2)]; TriMeshObj 0 1;
               NdBool [true; true; true; false; true]] 2 3
              {| points := [[0; 0]; [1; 0]; [0; 1]; [1; 1]; [2; 2]]%R;
                 n_dims := 2; trilist := [(0, 1, 2); (1, 3, 2)] |}
              [true; true; true; false; true])
    as (tm & h' & out & keep & Hrun & Hout & Hinv & Htl & _).
  - reflexivity.
  - reflexivity.
  - reflexivity.
  - by exists 3.
  - exists tm, h', out. split_and!; try done.
    cbv in Hrun. injection Hrun as <- <-. cbv in Hout. by injection Hout as <-.
Defined.

Lemma from_mask_all_true_witness :
  ∃ tm h',
    from_mask 2 3
      [NdFloat 2 [[0; 0]; [3; 0]; [0; 4]]%R; NdInt3 [(0, 1, 2)];
       TriMeshObj 0 1; NdBool [true; true; true]] = (Ok tm, h') ∧
    mesh_at h' tm
    = Some {| points := [[0; 0]; [3; 0]; [0; 4]]%R; n_dims := 2;
              trilist := [(0, 1, 2)] |}.
Proof.
  destruct (from_mask_all_true
              [NdFloat 2 [[0; 0]; [3; 0]; [0; 4]]%R; NdInt3 [(0, 1, 2)];
               TriMeshObj 0 1; NdBool [true; true; true]] 2 3
              {| points := [[0; 0]; [3; 0]; [0; 4]]%R; n_dims := 2;
                 trilist := [(0, 1, 2)] |}
              [true; true; true])
    as (tm & h' & p & t & Hrun & Hout & _).
  - reflexivity.
  - reflexivity.
  - reflexivity.
  - intros [|[|[|i]]] b [= <-]; reflexivity.
  - by exists tm, h'.
Defined.

Lemma from_mask_preserves_self_witness :
  ∃ r h',
    from_mask 2 3
      [NdFloat 2 [[0; 0]; [3; 0]; [0; 4]]%R; NdInt3 [(0, 1, 2)];
       TriMeshObj 0 1; NdBool [true; false]] = (r, h') ∧
    r = Raise ValueError ∧
    mesh_at h' 2
    = Some {| points := [[0; 0]; [3; 0]; [0; 4]]%R; n_dims := 2;
              trilist := [(0, 1, 2)] |}.
Proof.
  destruct (from_mask_preserves_self
              [NdFloat 2 [[0; 0]; [3; 0]; [0; 4]]%R; NdInt3 [(0, 1, 2)];
               TriMeshObj 0 1; NdBool [true; false]] 2 3
              {| points := [[0; 0]; [3; 0]; [0; 4]]%R; n_dims := 2;
                 trilist := [(0, 1, 2)] |}
              [true; false])
    as (r & h' & Hrun & _ & Hself & _ & Herr & _).
  - reflexivity.
  - reflexivity.
  - exists r, h'. split_and!; [done | | done].
    apply Herr. unfold n_points. simpl. lia.
Defined.
End MeshFacts.

(** * Properties of the other [PCAModel] queries *)

Module PCAQueriesFacts.
Import Vec PCA PCAQueries ListFacts PCAFacts.
Local Open Scope R_scope.

Lemma vsum_scale (l : list R) s : vsum (map (λ e, e / s) l) = vsum l / s.
Proof.
  induction l as [|e l IH]; simpl; [unfold Rdiv; ring|].
  rewrite IH. unfold Rdiv. ring.
Qed.

Lemma vsum_nonneg (l : list R) : Forall (λ e, 0 <= e) l → 0 <= vsum l.
Proof. induction 1 as [|e l He Hl IH]; simpl; lra. Qed.

Lemma elem_le_vsum (l : list R) e :
  Forall (λ e, 0 <= e) l → e ∈ l → e <= vsum l.
Proof.
  induction 1 as [|x l Hx Hl IH]; [by intros ?%elem_of_nil|].
  pose proof (vsum_nonneg l Hl).
  intros [->|He%IH]%elem_of_cons; simpl; lra.
Qed.

(** [eigenvalues_ratio]: when the retained eigenvalues do not sum to zero
    the ratios sum to 1, and when none of them is negative every ratio lies
    between 0 and 1. *)
Theorem eigenvalues_ratio_sums_to_one (self : PCAModel) :
  vsum (eigenvalues self) ≠ 0 →
  vsum (eigenvalues_ratio self) = 1 ∧
  length (eigenvalues_ratio self) = length (eigenvalues self) ∧
  (Forall (λ e, 0 <= e) (eigenvalues self) →
   Forall (λ r, 0 <= r <= 1) (eigenvalues_ratio self)).
Proof.
  intros Hs. unfold eigenvalues_ratio. split_and!.
  - rewrite vsum_scale. by field.
  - by rewrite length_map.
  - intros Hpos. pose proof (vsum_nonneg _ Hpos) as Hsum.
    assert (Hlt : 0 < vsum (eigenvalues self)) by lra.
    apply Forall_forall. intros r. rewrite map_fmap.
    intros (e & -> & He)%list_elem_of_fmap.
    pose proof (elem_le_vsum _ e Hpos He) as Hle.
    rewrite Forall_forall in Hpos. specialize (Hpos e He). split.
    + apply Rmult_le_pos; [done|]. left. by apply Rinv_0_lt_compat.
    + apply (Rmult_le_reg_r (vsum (eigenvalues self))); [done|].
      unfold Rdiv. rewrite Rmult_assoc, Rinv_l by done. lra.
Qed.

Lemma eigenvalues_ratio_sums_to_one_witness :
  vsum (eigenvalues_ratio
          (MeanInstanceLinearModel_init [[1; 0]; [0; 1]] [0; 0] [3; 1])) = 1.
Proof.
  apply (eigenvalues_ratio_sums_to_one
           (MeanInstanceLinearModel_init [[1; 0]; [0; 1]] [0; 0] [3; 1])).
  unfold eigenvalues, vsum. simpl. lra.
Defined.

(** *** [component_vector] *)

Lemma add_broadcast_same u v :
  length u = length v → add_broadcast u v = Ok (zip_with Rplus u v).
Proof. intros E. unfold add_broadcast. by rewrite E, Nat.eqb_refl. Qed.

Lemma blend_zero (c m : list R) :
  length c = length m → zip_with Rplus (map (λ y, 0 * y) c) m = m.
Proof.
  revert m. induction c as [|y c IH]; intros [|x m] E; simplify_eq/=; [done|].
  rewrite IH by done. f_equal. ring.
Qed.

Lemma blend_opposite (c m : list R) k :
  length c = length m →
  zip_with Rplus (zip_with Rplus (map (λ y, k * y) c) m)
                 (zip_with Rplus (map (λ y, - k * y) c) m)
  = map (λ x, 2 * x) m.
Proof.
  revert m. induction c as [|y c IH]; intros [|x m] E; simplify_eq/=; [done|].
  rewrite IH by done. f_equal. ring.
Qed.

(** [component_vector]: an index that is not below [n_components] raises
    [IndexError], with or without the mean. *)
Theorem component_vector_out_of_range (self : PCAModel) (index : nat)
    (with_mean : bool) (scale : R) :
  (n_components self ≤ index)%nat →
  component_vector self index with_mean scale = Raise IndexError.
Proof.
  intros Hge. unfold component_vector, eigenvalues, components.
  rewrite !lookup_take_ge by done. by destruct with_mean.
Qed.

Lemma component_vector_out_of_range_witness :
  component_vector (MeanInstanceLinearModel_init [[1; 0]] [0; 0] [4]) 1 true 1
  = Raise IndexError.
Proof. apply component_vector_out_of_range. simpl. lia. Defined.

(** [component_vector]: without the mean the component is returned whatever
    the scale; with the mean, scale 0 gives the mean vector, and the
    vectors at scales [s] and [-s] lie on opposite sides of the mean, at
    [s * sqrt(eigenvalue)] times the component: they add up to twice the
    mean. *)
Theorem component_vector_about_mean (self : PCAModel) (index : nat)
    (c : list R) (e : R) :
  components self !! index = Some c →
  eigenvalues self !! index = Some e →
  length c = length (mean_vector self) →
  (∀ s, component_vector self index false s = Ok c) ∧
  component_vector self index true 0 = Ok (mean_vector self) ∧
  (∀ s, ∃ up down,
     component_vector self index true s = Ok up ∧
     component_vector self index true (- s) = Ok down ∧
     up = zip_with Rplus (map (λ y, s * sqrt e * y) c) (mean_vector self) ∧
     zip_with Rplus up down = map (λ x, 2 * x) (mean_vector self)).
Proof.
  intros Hc He Hlen. unfold component_vector. rewrite Hc, He. split_and!.
  - done.
  - rewrite add_broadcast_same by by rewrite length_map.
    rewrite Rmult_0_l. by rewrite blend_zero.
  - intros s. do 2 eexists.
    rewrite !add_broadcast_same by by rewrite length_map.
    split_and!; [reflexivity | reflexivity | reflexivity |].
    replace (- s * sqrt e) with (- (s * sqrt e)) by ring.
    by apply blend_opposite.
Qed.

Lemma component_vector_about_mean_witness :
  component_vector (MeanInstanceLinearModel_init [[1; 0]] [5; 7] [4]) 0 true 0
  = Ok [5; 7].
Proof.
  apply (component_vector_about_mean
           (MeanInstanceLinearModel_init [[1; 0]] [5; 7] [4]) 0 [1; 0] 4);
    reflexivity.
Defined.

(** *** [distance_to_subspace_vector] *)

(** [distance_to_subspace_vector]: whatever the projection does, also if it
    would fail, a zero noise variance raises [ValueError]; otherwise the
    projected-out vector is scaled by [1 / noise_variance], so a vector
    whose projection is all zeros gives all zeros. *)
Theorem distance_to_subspace_vector_domain
    (project_out_vectors : PCAModel → list R → result (list R))
    (self : PCAModel) (x : list R) :
  (noise_variance self = 0 →
   distance_to_subspace_vector project_out_vectors self x = Raise ValueError) ∧
  (noise_variance self ≠ 0 →
   ∀ v, project_out_vectors self x = Ok v →
     distance_to_subspace_vector project_out_vectors self x
       = Ok (map (λ y, 1 / noise_variance self * y) v) ∧
     (Forall (λ y, y = 0) v →
      ∃ d, distance_to_subspace_vector project_out_vectors self x = Ok d ∧
           length d = length v ∧ Forall (λ y, y = 0) d)).
Proof.
  unfold distance_to_subspace_vector, inverse_noise_variance. split.
  - intros E. by destruct (Req_dec_T (noise_variance self) 0).
  - intros Hne v Hv.
    destruct (Req_dec_T (noise_variance self) 0); [done|]. rewrite Hv.
    split; [done|]. intros Hz. eexists. split_and!; [done | by rewrite length_map |].
    apply Forall_forall. intros d. rewrite map_fmap.
    intros (y & -> & Hy)%list_elem_of_fmap.
    rewrite Forall_forall in Hz. rewrite (Hz y Hy). ring.
Qed.

Lemma distance_to_subspace_vector_domain_witness :
  distance_to_subspace_vector (λ _ _, Raise TypeError)
    (MeanInstanceLinearModel_init [[1; 0]] [0; 0] [4]) [1; 0]
  = Raise ValueError.
Proof.
  apply (distance_to_subspace_vector_domain (λ _ _, Raise TypeError)).
  reflexivity.
Defined.

(** *** Linearity of the whitened projection *)

Lemma project_whitened_vector_rows self x w :
  whitened_components self = Ok w →
  Forall (λ row, length row = length x) w →
  project_whitened_vector self x
  = Ok (dgemm_weights_w (length x) (map (dot x) w) w).
Proof.
  intros Hw Hrows. unfold project_whitened_vector, dgemm_x_wT. rewrite Hw.
  assert (forallb (λ row, length row =? length x)%nat w = true) as ->; [|done].
  apply forallb_forall. intros row Hrow%list_elem_of_In.
  rewrite Forall_forall in Hrows. apply Nat.eqb_eq. by apply Hrows.
Qed.

Lemma whitened_rows_length self x :
  shaped self x →
  ∃ w, whitened_components self = Ok w ∧
       Forall (λ row, length row = length x) w.
Proof.
  intros [Hlen Hrows]. eexists. split; [by apply whitened_components_rows|].
  apply Forall_forall. intros row [i Hi]%list_elem_of_lookup.
  apply lookup_zip_with_Some in Hi as (c & e & -> & Hc & _).
  unfold vdiv. rewrite length_map. rewrite Forall_forall in Hrows.
  apply Hrows. by eapply list_elem_of_lookup_2.
Qed.

Lemma map_dot_add x y (w : list (list R)) :
  length x = length y →
  map (dot (zip_with Rplus x y)) w = zip_with Rplus (map (dot x) w) (map (dot y) w).
Proof.
  intros E. induction w as [|c w IH]; [done|]. simpl.
  by rewrite IH, dot_add.
Qed.

Lemma map_dot_scale s x (w : list (list R)) :
  map (dot (map (λ y, s * y) x)) w = map (λ y, s * y) (map (dot x) w).
Proof.
  induction w as [|c w IH]; [done|]. simpl. by rewrite IH, dot_scale.
Qed.

Lemma combination_add n a b (w : list (list R)) :
  length a = length b →
  dgemm_weights_w n (zip_with Rplus a b) w
  = zip_with Rplus (dgemm_weights_w n a w) (dgemm_weights_w n b w).
Proof.
  intros E. unfold dgemm_weights_w. rewrite <- map_plus.
  apply map_ext. intros j. by apply dot_add.
Qed.

Lemma combination_scale n s a (w : list (list R)) :
  dgemm_weights_w n (map (λ y, s * y) a) w
  = map (λ y, s * y) (dgemm_weights_w n a w).
Proof.
  unfold dgemm_weights_w. rewrite map_map.
  apply map_ext. intros j. apply dot_scale.
Qed.

(** [project_whitened_vector] is linear: the reconstruction of a sum is the
    sum of the reconstructions, the reconstruction of a multiple is that
    multiple of the reconstruction, and the result is as long as the
    vector. *)
Theorem project_whitened_vector_linear (self : PCAModel) (x y : list R) :
  shaped self x → length x = length y →
  ∃ px py,
    project_whitened_vector self x = Ok px ∧
    project_whitened_vector self y = Ok py ∧
    length px = length x ∧
    project_whitened_vector self (zip_with Rplus x y)
      = Ok (zip_with Rplus px py) ∧
    ∀ s, project_whitened_vector self (map (λ v, s * v) x)
         = Ok (map (λ v, s * v) px).
Proof.
  intros Hshape Hxy. destruct (whitened_rows_length self x Hshape) as (w & Hw & Hrows).
  do 2 eexists. split_and!.
  - by apply project_whitened_vector_rows.
  - apply project_whitened_vector_rows; [done|]. by rewrite <- Hxy.
  - unfold dgemm_weights_w. by rewrite length_map, length_seq.
  - rewrite (project_whitened_vector_rows self _ w Hw).
    + rewrite length_zip_with, <- Hxy, Nat.min_id.
      rewrite map_dot_add by done. rewrite combination_add by by rewrite !length_map.
      done.
    + by rewrite length_zip_with, <- Hxy, Nat.min_id.
  - intros s. rewrite (project_whitened_vector_rows self _ w Hw).
    + by rewrite length_map, map_dot_scale, combination_scale.
    + by rewrite length_map.
Qed.

Lemma project_whitened_vector_linear_witness :
  ∃ px py,
    project_whitened_vector
      (MeanInstanceLinearModel_init [[1; 0]] [0; 0] [4]) [1; 2] = Ok px ∧
    project_whitened_vector
      (MeanInstanceLinearModel_init [[1; 0]] [0; 0] [4]) [3; 5] = Ok py ∧
    project_whitened_vector
      (MeanInstanceLinearModel_init [[1; 0]] [0; 0] [4]) [1 + 3; 2 + 5]
    = Ok (zip_with Rplus px py).
Proof.
  destruct (project_whitened_vector_linear
              (MeanInstanceLinearModel_init [[1; 0]] [0; 0] [4]) [1; 2] [3; 5])
    as (px & py & Hx & Hy & _ & Hadd & _).
  - split; [reflexivity | by repeat constructor].
  - reflexivity.
  - by exists px, py.
Defined.

(** *** The whitened basis *)

Lemma dot_vdiv_l d c x : dot (vdiv d c) x = dot c x / d.
Proof.
  revert x. induction c as [|b c IH]; intros [|a x].
  1-3: unfold dot; simpl; unfold Rdiv; ring.
  change (vdiv d (b :: c)) with (b / d :: vdiv d c).
  rewrite !dot_cons, IH. unfold Rdiv. ring.
Qed.

(** [whitened_components] of orthonormal components: two different rows
    are orthogonal, and the squared length of row [i] is
    [1 / (eigenvalue_i + noise_variance)]: the basis is orthogonal but not
    orthonormal. *)
Theorem whitened_components_orthogonal (self : PCAModel) :
  length (components self) = length (eigenvalues self) →
  orthonormal (components self) →
  Forall (λ e, 0 < e + noise_variance self) (eigenvalues self) →
  ∃ w,
    whitened_components self = Ok w ∧
    ∀ i j wi wj e,
      w !! i = Some wi → w !! j = Some wj → eigenvalues self !! i = Some e →
      dot wi wj = if decide (i = j) then 1 / (e + noise_variance self) else 0.
Proof.
  intros Hlen Horth Hpos. eexists. split; [by apply whitened_components_rows|].
  intros i j wi wj e Hi Hj He.
  apply lookup_zip_with_Some in Hi as (ci & ei & -> & Hci & Hei).
  apply lookup_zip_with_Some in Hj as (cj & ej & -> & Hcj & Hej).
  assert (ei = e) as -> by congruence.
  rewrite dot_vdiv, dot_vdiv_l, (Horth i j ci cj) by done.
  destruct (decide (i = j)) as [->|Hne].
  - assert (ej = e) as -> by congruence. rewrite Forall_forall in Hpos.
    assert (Hp : 0 < e + noise_variance self)
      by (apply Hpos; by eapply list_elem_of_lookup_2).
    assert (Hs : sqrt (e + noise_variance self) * sqrt (e + noise_variance self)
                 = e + noise_variance self) by (apply sqrt_sqrt; lra).
    assert (Hne : sqrt (e + noise_variance self) ≠ 0).
    { intros E. rewrite E in Hs. lra. }
    rewrite <- Hs at 3. by field.
  - unfold Rdiv. ring.
Qed.

Lemma whitened_components_orthogonal_witness :
  ∃ w,
    whitened_components
      (MeanInstanceLinearModel_init [[1; 0]; [0; 1]] [0; 0] [4; 1]) = Ok w ∧
    length w = 2%nat.
Proof.
  destruct (whitened_components_orthogonal
              (MeanInstanceLinearModel_init [[1; 0]; [0; 1]] [0; 0] [4; 1]))
    as (w & Hw & _).
  - reflexivity.
  - intros [|[|i]] [|[|j]] ci cj [= <-] [= <-]; unfold dot, vsum; simpl;
      rewrite ?decide_True, ?decide_False by lia; ring.
  - unfold noise_variance, eigenvalues. simpl. repeat constructor; lra.
  - exists w. split; [done|].
    rewrite whitened_components_rows in Hw by reflexivity.
    by injection Hw as <-.
Defined.
End PCAQueriesFacts.

(** * Properties of adjacency, edge vectors and means *)

Module MeshEdgesFacts.
Import Vec Store Mesh MeshEdges ListFacts MeshFacts.

(** *** The adjacency array and the edge indices *)

Lemma zip_with_pair_map {A B C} (f : A → B) (g : A → C) (l : list A) :
  zip_with pair (map f l) (map g l) = map (λ x, (f x, g x)) l.
Proof. induction l as [|x l IH]; [done|]. simpl. by rewrite IH. Qed.

(** row [i] of each of three stacked blocks *)
Lemma blocks_at {A B} (f g h : A → B) (l : list A) i x :
  l !! i = Some x →
  (map f l ++ map g l ++ map h l) !! i = Some (f x) ∧
  (map f l ++ map g l ++ map h l) !! (length l + i) = Some (g x) ∧
  (map f l ++ map g l ++ map h l) !! (2 * length l + i) = Some (h x).
Proof.
  intros Hx. pose proof (lookup_lt_Some _ _ _ Hx) as Hlt.
  rewrite !map_fmap. split_and!.
  - apply lookup_app_l_Some. by rewrite list_lookup_fmap, Hx.
  - rewrite lookup_app_r by (rewrite length_fmap; lia).
    rewrite length_fmap. replace (length l + i - length l) with i by lia.
    apply lookup_app_l_Some. by rewrite list_lookup_fmap, Hx.
  - rewrite lookup_app_r by (rewrite length_fmap; lia).
    rewrite lookup_app_r by (rewrite !length_fmap; lia).
    rewrite !length_fmap.
    replace (2 * length l + i - length l - length l) with i by lia.
    by rewrite list_lookup_fmap, Hx.
Qed.

(** [edge_indices] returns the array [trilist_to_adjacency_array] builds
    from the triangle list: [3 * n_tris] rows in three blocks, where rows
    [i], [n_tris + i] and [2 * n_tris + i] are the pairs (A, B), (B, C)
    and (C, A) of triangle [i]. *)
Theorem edge_indices_adjacency (self : TriMesh) :
  edge_indices self = trilist_to_adjacency_array (trilist self) ∧
  length (trilist_to_adjacency_array (trilist self)) = 3 * n_tris self ∧
  ∀ i a b c,
    trilist self !! i = Some (a, b, c) →
    trilist_to_adjacency_array (trilist self) !! i = Some (a, b) ∧
    trilist_to_adjacency_array (trilist self) !! (n_tris self + i)
      = Some (b, c) ∧
    trilist_to_adjacency_array (trilist self) !! (2 * n_tris self + i)
      = Some (c, a).
Proof.
  assert (E : edge_indices self = trilist_to_adjacency_array (trilist self)).
  { unfold edge_indices, trilist_to_adjacency_array, cols01, cols12, cols20.
    rewrite zip_with_pair_map.
    f_equal. all: try f_equal. all: apply map_ext; by intros [[a b] c]. }
  split_and!; [done | by rewrite <- E, length_edge_indices |].
  intros i a b c Hi. rewrite <- E.
  apply (blocks_at (λ '(a, b, c), (a, b)) (λ '(a, b, c), (b, c))
           (λ '(a, b, c), (c, a)) (trilist self) i (a, b, c) Hi).
Qed.

(** *** Edge vectors and edge lengths *)

Section EdgeVectors.
Local Open Scope R_scope.

Lemma take_points_Ok pts tl t :
  take_points pts tl = Ok t →
  Forall2 (λ '(a, b, c) '(pa, pb, pc),
             pts !! a = Some pa ∧ pts !! b = Some pb ∧ pts !! c = Some pc)
          tl t.
Proof.
  revert t. induction tl as [|[[a b] c] tl IH]; intros t; simpl.
  { intros [= <-]. constructor. }
  unfold row_at.
  destruct (pts !! a) eqn:Ha, (pts !! b) eqn:Hb, (pts !! c) eqn:Hc,
    (take_points pts tl); try done.
  intros [= <-]. constructor; [done | by apply IH].
Qed.

Lemma take_points_Ok_in_range self t :
  take_points (points self) (trilist self) = Ok t → in_range self.
Proof.
  intros Ht%take_points_Ok. unfold in_range, n_points.
  induction Ht as [|[[a b] c] [[pa pb] pc] tl t (Ha & Hb & Hc) _ IH];
    constructor; [|done].
  repeat constructor; by eapply lookup_lt_Some.
Qed.

Lemma vsub_close (pa pb pc : list R) :
  length pb = length pa → length pc = length pa →
  zip_with Rplus (vsub pb pa) (vsub pc pb) = vsub pc pa.
Proof.
  unfold vsub. revert pb pc.
  induction pa as [|x pa IH]; intros [|y pb] [|z pc] Hb Hc; simplify_eq/=;
    [done|].
  rewrite IH by done. f_equal. ring.
Qed.

Lemma norm_vsub_sym (u v : list R) : norm (vsub u v) = norm (vsub v u).
Proof.
  unfold norm. f_equal. unfold vsub. revert v.
  induction u as [|x u IH]; intros [|y v]; simpl; try done.
  rewrite IH. ring.
Qed.

(** [edge_vectors]: with every index in range it returns [3 * n_tris] rows
    in three blocks, where rows [i], [n_tris + i] and [2 * n_tris + i] are
    B - A, C - B and C - A for triangle [i] = (A, B, C).  The third one is
    the sum of the first two, the vector from A to C.  With an index out of
    range it raises [IndexError]. *)
Theorem edge_vectors_blocks (self : TriMesh) :
  (in_range self →
   ∃ ev,
     edge_vectors self = Ok ev ∧
     length ev = (3 * n_tris self)%nat ∧
     ∀ i a b c pa pb pc,
       trilist self !! i = Some (a, b, c) →
       points self !! a = Some pa → points self !! b = Some pb →
       points self !! c = Some pc →
       ev !! i = Some (vsub pb pa) ∧
       ev !! (n_tris self + i)%nat = Some (vsub pc pb) ∧
       ev !! (2 * n_tris self + i)%nat = Some (vsub pc pa) ∧
       (length pb = length pa → length pc = length pa →
        zip_with Rplus (vsub pb pa) (vsub pc pb) = vsub pc pa)) ∧
  (¬ in_range self → edge_vectors self = Raise IndexError).
Proof.
  unfold edge_vectors. split.
  - intros Hr. destruct (take_points_in_range _ _ Hr) as (t & -> & Hall).
    pose proof (Forall2_length _ _ _ Hall) as Hlen. unfold n_tris.
    eexists. split_and!; [done | |].
    + rewrite !length_app, !length_map. lia.
    + intros i a b c pa pb pc Hi Ha Hb Hc.
      destruct (Forall2_lookup_l _ _ _ _ _ Hall Hi) as ([[qa qb] qc] & Ht & H).
      destruct H as (Ha' & Hb' & Hc'). simplify_eq.
      rewrite Hlen.
      destruct (blocks_at (λ '(pa, pb, pc), vsub pb pa)
                  (λ '(pa, pb, pc), vsub pc pb) (λ '(pa, pb, pc), vsub pc pa)
                  t i (pa, pb, pc) Ht) as (H0 & H1 & H2).
      split_and!; try done. apply vsub_close.
  - intros Hnr. destruct (take_points _ _) as [t|e] eqn:Ht.
    + exfalso. by eapply Hnr, take_points_Ok_in_range.
    + by apply take_points_raises in Ht as ->.
Qed.

Lemma edge_vectors_blocks_witness :
  ∃ ev,
    edge_vectors {| points := [[0; 0]; [3; 0]; [0; 4]]; n_dims := 2;
                    trilist := [(0, 1, 2)%nat] |} = Ok ev ∧
    length ev = 3%nat.
Proof.
  destruct (proj1 (edge_vectors_blocks
                     {| points := [[0; 0]; [3; 0]; [0; 4]]; n_dims := 2;
                        trilist := [(0, 1, 2)%nat] |}))
    as (ev & Hev & Hlen & _).
  - unfold in_range, n_points. simpl. repeat constructor.
  - by exists ev.
Defined.

Lemma pair_length_of_rows pts a b pa pb :
  pts !! a = Some pa → pts !! b = Some pb →
  pair_length pts (a, b) = norm (vsub pb pa).
Proof.
  intros Ha Hb. unfold pair_length. simpl.
  by rewrite (nth_lookup_Some _ _ _ _ Ha), (nth_lookup_Some _ _ _ _ Hb).
Qed.

Lemma edge_lengths_blocks pts tl t :
  Forall2 (λ '(a, b, c) '(pa, pb, pc),
             pts !! a = Some pa ∧ pts !! b = Some pb ∧ pts !! c = Some pc)
          tl t →
  map norm (map (λ '(pa, pb, pc), vsub pb pa) t) = map (pair_length pts) (cols01 tl) ∧
  map norm (map (λ '(pa, pb, pc), vsub pc pb) t) = map (pair_length pts) (cols12 tl) ∧
  map norm (map (λ '(pa, pb, pc), vsub pc pa) t) = map (pair_length pts) (cols20 tl).
Proof.
  induction 1 as [|[[a b] c] [[pa pb] pc] tl t (Ha & Hb & Hc) _ (IH0 & IH1 & IH2)];
    [done|].
  simpl. rewrite IH0, IH1, IH2.
  rewrite (pair_length_of_rows pts a b pa pb), (pair_length_of_rows pts b c pb pc),
    (pair_length_of_rows pts c a pc pa) by done.
  by rewrite (norm_vsub_sym pa pc).
Qed.

Lemma edge_lengths_in_range self :
  in_range self →
  edge_lengths self = Ok (map (pair_length (points self)) (edge_indices self)).
Proof.
  intros Hr. unfold edge_lengths, edge_vectors.
  destruct (take_points_in_range _ _ Hr) as (t & -> & Hall).
  destruct (edge_lengths_blocks _ _ _ Hall) as (H0 & H1 & H2).
  unfold edge_indices. by rewrite !map_app, H0, H1, H2.
Qed.

(** [edge_lengths] follows the ordering of [edge_indices]: with every index
    in range, entry [p] is the distance between the two points of the pair
    [edge_indices()[p]], also in the third block, where the edge vector
    runs from A to C and the index pair is (C, A).  No length is
    negative. *)
Theorem edge_lengths_match_edge_indices (self : TriMesh) :
  in_range self →
  ∃ el,
    edge_lengths self = Ok el ∧
    length el = (3 * n_tris self)%nat ∧
    Forall (λ x, 0 <= x) el ∧
    ∀ p i j pi pj,
      edge_indices self !! p = Some (i, j) →
      points self !! i = Some pi → points self !! j = Some pj →
      el !! p = Some (norm (vsub pj pi)).
Proof.
  intros Hr. rewrite edge_lengths_in_range by done. eexists. split_and!.
  - done.
  - by rewrite length_map, length_edge_indices.
  - apply Forall_forall. intros x. rewrite map_fmap.
    intros (e & -> & _)%list_elem_of_fmap. apply norm_nonneg.
  - intros p i j pi pj Hp Hi Hj.
    rewrite map_fmap, list_lookup_fmap, Hp. simpl.
    by rewrite (pair_length_of_rows _ i j pi pj).
Qed.

Lemma edge_lengths_match_edge_indices_witness :
  ∃ el,
    edge_lengths {| points := [[0; 0]; [3; 0]; [0; 4]]; n_dims := 2;
                    trilist := [(0, 1, 2)%nat] |} = Ok el ∧
    length el = 3%nat.
Proof.
  destruct (edge_lengths_match_edge_indices
              {| points := [[0; 0]; [3; 0]; [0; 4]]; n_dims := 2;
                 trilist := [(0, 1, 2)%nat] |})
    as (el & Hel & Hlen & _).
  - unfold in_range, n_points. simpl. repeat constructor.
  - by exists el.
Defined.

(** *** Unique edges and mean edge length *)

Lemma take_pairs_in_range pts (es : list edge) :
  Forall (λ e, (e.1 < length pts)%nat ∧ (e.2 < length pts)%nat) es →
  take_pairs pts es = Ok (map (λ e, (nth e.1 pts [], nth e.2 pts [])) es).
Proof.
  induction 1 as [|[i j] es [Hi Hj] _ IH]; [done|]. simpl in *.
  apply lookup_lt_is_Some in Hi as [pi Hi], Hj as [pj Hj].
  unfold row_at. rewrite Hi, Hj, IH.
  by rewrite (nth_lookup_Some _ _ _ _ Hi), (nth_lookup_Some _ _ _ _ Hj).
Qed.

Lemma edge_indices_in_range self e :
  in_range self → e ∈ edge_indices self →
  (e.1 < n_points self)%nat ∧ (e.2 < n_points self)%nat.
Proof.
  unfold in_range, edge_indices, cols01, cols12, cols20. intros Hr.
  rewrite Forall_forall in Hr. rewrite !elem_of_app, !map_fmap.
  intros [H|[H|H]]; apply list_elem_of_fmap in H as ([[a b] c] & -> & Ht);
    specialize (Hr _ Ht); rewrite Forall_forall in Hr; simpl;
    split; apply Hr; unfold verts; repeat constructor.
Qed.

Lemma sort_row_cases e : sort_row e = e ∨ sort_row e = (e.2, e.1).
Proof. destruct e as [a b]. unfold sort_row. destruct (a <=? b)%nat; auto. Qed.

Lemma unique_edge_indicies_in_range self e :
  in_range self → e ∈ unique_edge_indicies self →
  (e.1 < n_points self)%nat ∧ (e.2 < n_points self)%nat.
Proof.
  intros Hr He. unfold unique_edge_indicies in He.
  destruct (unique_props (np_sort (edge_indices self))) as (_ & Hin & _).
  apply Hin in He. unfold np_sort in He. rewrite map_fmap in He.
  apply list_elem_of_fmap in He as (e' & -> & He').
  destruct (edge_indices_in_range self e' Hr He') as [H1 H2].
  destruct (sort_row_cases e') as [-> | ->]; by split.
Qed.

Lemma unique_edge_lengths_in_range self :
  in_range self →
  unique_edge_lengths self
  = Ok (map (pair_length (points self)) (unique_edge_indicies self)).
Proof.
  intros Hr. unfold unique_edge_lengths, unique_edge_vectors.
  rewrite take_pairs_in_range.
  - rewrite !map_map. f_equal.
  - apply Forall_forall. intros e He.
    by apply (unique_edge_indicies_in_range self e Hr).
Qed.

(** [unique_edge_lengths]: with every index in range there is one length
    per row of [unique_edge_indicies], at most [3 * n_tris] of them, and
    entry [k] is the distance between the two points of row [k]. *)
Theorem unique_edge_lengths_match_indices (self : TriMesh) :
  in_range self →
  ∃ ul,
    unique_edge_lengths self = Ok ul ∧
    length ul = length (unique_edge_indicies self) ∧
    (length ul ≤ 3 * n_tris self)%nat ∧
    ∀ k i j pi pj,
      unique_edge_indicies self !! k = Some (i, j) →
      points self !! i = Some pi → points self !! j = Some pj →
      ul !! k = Some (norm (vsub pj pi)).
Proof.
  intros Hr. rewrite unique_edge_lengths_in_range by done.
  eexists. split_and!.
  - done.
  - by rewrite length_map.
  - rewrite length_map. unfold unique_edge_indicies.
    etrans; [apply length_unique_le|].
    unfold np_sort. by rewrite length_map, length_edge_indices.
  - intros k i j pi pj Hk Hi Hj.
    rewrite map_fmap, list_lookup_fmap, Hk. simpl.
    by rewrite (pair_length_of_rows _ i j pi pj).
Qed.

Lemma unique_edge_lengths_match_indices_witness :
  ∃ ul,
    unique_edge_lengths
      {| points := [[0; 0]; [3; 0]; [0; 4]; [3; 4]]; n_dims := 2;
         trilist := [(0, 1, 2); (1, 3, 2)]%nat |} = Ok ul ∧
    length ul = 5%nat.
Proof.
  destruct (unique_edge_lengths_match_indices
              {| points := [[0; 0]; [3; 0]; [0; 4]; [3; 4]]; n_dims := 2;
                 trilist := [(0, 1, 2); (1, 3, 2)]%nat |})
    as (ul & Hul & Hlen & _).
  - unfold in_range, n_points. simpl. repeat constructor.
  - by exists ul.
Defined.

Lemma vsum_Permutation (l k : list R) : l ≡ₚ k → vsum l = vsum k.
Proof.
  induction 1 as [|x l k _ IH|x y l|l k m _ IH1 _ IH2]; simpl; try lra.
Qed.

Lemma mean_Permutation (l k : list R) : l ≡ₚ k → mean l = mean k.
Proof.
  intros Hp. unfold mean.
  by rewrite (vsum_Permutation _ _ Hp), (Permutation_length Hp).
Qed.

Lemma pair_length_sort pts e : pair_length pts (sort_row e) = pair_length pts e.
Proof.
  destruct (sort_row_cases e) as [-> | ->]; [done|].
  unfold pair_length. simpl. apply norm_vsub_sym.
Qed.

(** [mean_edge_length]: on a mesh with every index in range, where no two
    triangles share an edge and every triangle has three distinct
    vertices, [unique=True] and [unique=False] give the same mean. *)
Theorem mean_edge_length_without_shared_edges (self : TriMesh) :
  in_range self →
  Forall proper (trilist self) → no_shared_edge (trilist self) →
  ∃ m,
    mean_edge_length self true = Ok m ∧ mean_edge_length self false = Ok m.
Proof.
  intros Hr Hp Hns. unfold mean_edge_length.
  rewrite unique_edge_lengths_in_range, edge_lengths_in_range by done.
  eexists. split; [reflexivity|]. f_equal. symmetry.
  assert (Hnd : NoDup (np_sort (edge_indices self))).
  { rewrite sorted_edge_indices_Permutation. by apply NoDup_all_edges. }
  destruct (unique_props (np_sort (edge_indices self))) as (Hu & Hin & _).
  assert (Hperm : unique_edge_indicies self ≡ₚ np_sort (edge_indices self))
    by by apply NoDup_Permutation.
  transitivity (mean (map (pair_length (points self))
                        (np_sort (edge_indices self)))).
  - apply mean_Permutation. rewrite !map_fmap. by apply fmap_Permutation.
  - f_equal. unfold np_sort. rewrite map_map. apply map_ext.
    intros e. apply pair_length_sort.
Qed.

Lemma mean_edge_length_without_shared_edges_witness :
  ∃ m,
    mean_edge_length {| points := [[0; 0]; [3; 0]; [0; 4]]; n_dims := 2;
                        trilist := [(0, 1, 2)%nat] |} true = Ok m ∧
    mean_edge_length {| points := [[0; 0]; [3; 0]; [0; 4]]; n_dims := 2;
                        trilist := [(0, 1, 2)%nat] |} false = Ok m.
Proof.
  apply mean_edge_length_without_shared_edges.
  - unfold in_range, n_points. simpl. repeat constructor.
  - simpl. repeat constructor; lia.
  - intros [|i] [|j] t1 t2 e Hij H1 H2; simplify_eq/=.
Defined.

(** *** Areas: mean and winding *)

(** [mean_tri_area]: with every index in range and at least one triangle
    it is defined on 2D and on 3D meshes alike, as the sum of the areas
    divided by [n_tris]; on a 3D mesh it is not negative; for any other
    dimensionality it raises [ValueError]. *)
Theorem mean_tri_area_defined (self : TriMesh) :
  in_range self → trilist self ≠ [] →
  (n_dims self = 2%nat ∨ n_dims self = 3%nat →
   ∃ m areas,
     tri_areas self = Ok areas ∧ mean_tri_area self = Ok m ∧
     m * INR (n_tris self) = vsum areas ∧
     (n_dims self = 3%nat → 0 <= m)) ∧
  (n_dims self ≠ 2%nat → n_dims self ≠ 3%nat →
   mean_tri_area self = Raise ValueError).
Proof.
  intros Hr Hne. unfold mean_tri_area. split.
  - assert (Hmean : ∀ areas, length areas = n_tris self →
                      mean areas * INR (n_tris self) = vsum areas).
    { intros areas Hlen. rewrite <- Hlen. apply PCAFacts.mean_sum.
      intros ->. unfold n_tris in Hlen. by destruct (trilist self). }
    intros [H2|H3].
    + destruct (tri_areas_2d self Hr H2) as (areas & -> & Hlen & _).
      exists (mean areas), areas. split_and!; [done | done | by apply Hmean |].
      intros H3. congruence.
    + destruct (tri_areas_3d self Hr H3) as (areas & -> & Hlen & Hpos & _).
      exists (mean areas), areas. split_and!; [done | done | by apply Hmean |].
      intros _. unfold mean. apply Rmult_le_pos.
      * by apply PCAQueriesFacts.vsum_nonneg.
      * left. apply Rinv_0_lt_compat, lt_0_INR.
        rewrite Hlen. unfold n_tris. destruct (trilist self); [done | simpl; lia].
  - intros H2 H3.
    by destruct (tri_areas_other self H2 H3) as [_ ->].
Qed.

Lemma mean_tri_area_defined_witness :
  ∃ m areas,
    tri_areas {| points := [[0; 0]; [3; 0]; [0; 4]]; n_dims := 2;
                 trilist := [(0, 1, 2)%nat] |} = Ok areas ∧
    mean_tri_area {| points := [[0; 0]; [3; 0]; [0; 4]]; n_dims := 2;
                     trilist := [(0, 1, 2)%nat] |} = Ok m ∧
    m * INR 1 = vsum areas.
Proof.
  destruct (proj1 (mean_tri_area_defined
                     {| points := [[0; 0]; [3; 0]; [0; 4]]; n_dims := 2;
                        trilist := [(0, 1, 2)%nat] |}
                     ltac:(unfold in_range, n_points; simpl; repeat constructor)
                     ltac:(discriminate)))
    as (m & areas & Ha & Hm & Hsum & _).
  - by left.
  - by exists m, areas.
Defined.

Lemma vsub_translate (d pa pb : list R) :
  length pa = length d → length pb = length d →
  vsub (zip_with Rplus pb d) (zip_with Rplus pa d) = vsub pb pa.
Proof.
  unfold vsub. revert pa pb.
  induction d as [|z d IH]; intros [|x pa] [|y pb] Ha Hb; simplify_eq/=;
    [done|].
  rewrite IH by done. f_equal. ring.
Qed.

Lemma take_points_translate (d : list R) pts tl :
  Forall (λ p, length p = length d) pts →
  match take_points (map (λ p, zip_with Rplus p d) pts) tl,
        take_points pts tl with
  | Ok t', Ok t =>
      map (λ '(pa, pb, pc), (vsub pb pa, vsub pc pa)) t'
      = map (λ '(pa, pb, pc), (vsub pb pa, vsub pc pa)) t
  | Raise e', Raise e => e' = e
  | _, _ => False
  end.
Proof.
  intros Hd. induction tl as [|[[a b] c] tl IH]; [done|]. simpl.
  unfold row_at. rewrite !map_fmap, !list_lookup_fmap.
  destruct (pts !! a) as [pa|] eqn:Ha, (pts !! b) as [pb|] eqn:Hb,
    (pts !! c) as [pc|] eqn:Hc; simpl;
    destruct (take_points _ tl), (take_points pts tl); try done.
  simpl. rewrite IH. rewrite Forall_forall in Hd.
  rewrite !vsub_translate; [done|..];
    apply Hd; by eapply list_elem_of_lookup_2.
Qed.

(** [tri_areas] does not depend on where the mesh lies: adding one vector
    to every point leaves the result, areas or exception, unchanged. *)
Theorem tri_areas_translated (self : TriMesh) (d : list R) :
  Forall (λ p, length p = length d) (points self) →
  tri_areas {| points := map (λ p, zip_with Rplus p d) (points self);
               n_dims := n_dims self; trilist := trilist self |}
  = tri_areas self.
Proof.
  intros Hd. unfold tri_areas. simpl.
  pose proof (take_points_translate d (points self) (trilist self) Hd) as H.
  destruct (take_points _ (trilist self)), (take_points (points self) _);
    try done; [by rewrite H | by subst].
Qed.

Lemma tri_areas_translated_witness :
  tri_areas {| points := map (λ p, zip_with Rplus p [10; 20])
                           [[0; 0]; [3; 0]; [0; 4]];
               n_dims := 2; trilist := [(0, 1, 2)%nat] |}
  = tri_areas {| points := [[0; 0]; [3; 0]; [0; 4]]; n_dims := 2;
                 trilist := [(0, 1, 2)%nat] |}.
Proof.
  apply (tri_areas_translated
           {| points := [[0; 0]; [3; 0]; [0; 4]]; n_dims := 2;
              trilist := [(0, 1, 2)%nat] |} [10; 20]).
  simpl. by repeat constructor.
Defined.

Lemma take_points_reversed pts tl t :
  take_points pts tl = Ok t →
  take_points pts (reversed tl) = Ok (map (λ '(pa, pb, pc), (pa, pc, pb)) t).
Proof.
  revert t. induction tl as [|[[a b] c] tl IH]; intros t; simpl.
  { by intros [= <-]. }
  unfold row_at.
  destruct (pts !! a), (pts !! b), (pts !! c), (take_points pts tl); try done.
  intros [= <-]. by rewrite (IH _ eq_refl).
Qed.

(** [tri_areas] and the winding order: reversing every triangle (A, B, C)
    to (A, C, B) negates every area of a 2D mesh and leaves every area of a
    3D mesh as it is. *)
Theorem tri_areas_reversed (self : TriMesh) (areas : list R) :
  tri_areas self = Ok areas →
  (n_dims self = 2%nat →
   tri_areas {| points := points self; n_dims := n_dims self;
                trilist := reversed (trilist self) |}
   = Ok (map Ropp areas)) ∧
  (n_dims self = 3%nat →
   tri_areas {| points := points self; n_dims := n_dims self;
                trilist := reversed (trilist self) |}
   = Ok areas).
Proof.
  unfold tri_areas. simpl.
  destruct (take_points (points self) (trilist self)) as [t|] eqn:Ht; [|done].
  rewrite (take_points_reversed _ _ _ Ht). split.
  - intros H2. rewrite H2 in *. simpl in *. simplify_eq. f_equal.
    rewrite !map_map. apply map_ext. intros [[pa pb] pc].
    unfold cross2. ring.
  - intros H3. rewrite H3 in *. simpl in *. simplify_eq. f_equal.
    rewrite !map_map. apply map_ext. intros [[pa pb] pc].
    f_equal. unfold norm, cross3, vsum. simpl. f_equal. ring.
Qed.

Lemma tri_areas_reversed_witness :
  tri_areas {| points := [[0; 0]; [3; 0]; [0; 4]]; n_dims := 2;
               trilist := [(0, 2, 1)%nat] |}
  = Ok (map Ropp [(3 - 0) * (4 - 0) * 0.5]).
Proof.
  refine (proj1 (tri_areas_reversed
                   {| points := [[0; 0]; [3; 0]; [0; 4]]; n_dims := 2;
                      trilist := [(0, 1, 2)%nat] |}
                   [(3 - 0) * (4 - 0) * 0.5] _) _); [|reflexivity].
  unfold tri_areas, cross2. simpl. do 2 f_equal. ring.
Defined.
End EdgeVectors.

(** *** The recomputed mask *)

(** [_isolated_mask] works on a copy: it returns a new array, as long as
    the mask, and changes nothing that existed, the mask included.  The new
    mask only clears entries: where it is [True] the mask was [True], and
    where the mask was [False] it is [False]. *)
Theorem isolated_mask_only_clears (h : store) (self mask : loc)
    (m : TriMesh) (mk : list bool) :
  mesh_at h self = Some m →
  h !! mask = Some (NdBool mk) →
  ∃ new,
    _isolated_mask self mask h = (Ok (length h), h ++ [NdBool new]) ∧
    (h ++ [NdBool new]) !! mask = Some (NdBool mk) ∧
    length new = length mk ∧
    (∀ i, new !! i = Some true → mk !! i = Some true) ∧
    (∀ i, mk !! i = Some false → new !! i = Some false).
Proof.
  intros Hm Hmask. apply mesh_at_Some in Hm as (p & t & Hself & Hp & Ht).
  eexists. split.
  { unfold _isolated_mask, self_trilist, load_mesh, load_int3, load_bool.
    unfold mbind, M_bind, mret, M_ret, load, alloc, store_at.
    run_store Hself Hp Ht Hmask.
    rewrite <- (Nat.add_0_r (length h)) at 2.
    rewrite insert_app_add. simpl. reflexivity. }
  split_and!.
  - by apply lookup_app_l_Some.
  - apply length_clear_at.
  - intros i. rewrite lookup_clear_at. destruct (decide _); [|done].
    by destruct (mk !! i).
  - intros i Hi. rewrite lookup_clear_at, Hi. by destruct (decide _).
Qed.

Lemma isolated_mask_only_clears_witness :
  ∃ new,
    _isolated_mask 2 3
      [NdFloat 2 [[0; 0]; [1; 0]; [0; 1]; [1; 1]; [2; 2]]%R;
       NdInt3 [(0, 1, 2); (1, 3, 2)]; TriMeshObj 0 1;
       NdBool [true; true; true; false; true]]
    = (Ok 4,
       [NdFloat 2 [[0; 0]; [1; 0]; [0; 1]; [1; 1]; [2; 2]]%R;
        NdInt3 [(0, 1, 2); (1, 3, 2)]; TriMeshObj 0 1;
        NdBool [true; true; true; false; true]] ++ [NdBool new]) ∧
    length new = 5.
Proof.
  destruct (isolated_mask_only_clears
              [NdFloat 2 [[0; 0]; [1; 0]; [0; 1]; [1; 1]; [2; 2]]%R;
               NdInt3 [(0, 1, 2); (1, 3, 2)]; TriMeshObj 0 1;
               NdBool [true; true; true; false; true]] 2 3
              {| points := [[0; 0]; [1; 0]; [0; 1]; [1; 1]; [2; 2]]%R;
                 n_dims := 2; trilist := [(0, 1, 2); (1, 3, 2)] |}
              [true; true; true; false; true])
    as (new & Hrun & _ & Hlen & _).
  - reflexivity.
  - reflexivity.
  - by exists new.
Defined.

(** *** Bounds of the boundary selection *)

Lemma NoDup_below_length (l : list nat) n :
  NoDup l → (∀ i, i ∈ l → i < n) → length l ≤ n.
Proof.
  intros Hnd Hlt. transitivity (length (seq 0 n)); [|by rewrite length_seq].
  apply submseteq_length, NoDup_submseteq; [done|].
  intros i Hi%Hlt. apply elem_of_seq. lia.
Qed.

(** [boundary_tri_index] returns positions of the triangle list: every
    entry is below [n_tris], there are at most [n_tris] of them, and an
    empty triangle list gives an empty selection. *)
Theorem boundary_tri_index_in_range (self : TriMesh) :
  (∀ i, i ∈ boundary_tri_index self → i < n_tris self) ∧
  length (boundary_tri_index self) ≤ n_tris self ∧
  (n_tris self = 0 → boundary_tri_index self = []).
Proof.
  assert (Hlt : ∀ i, i ∈ boundary_tri_index self → i < n_tris self).
  { intros i (t & e & Hi & _)%elem_of_boundary_tri_index.
    by eapply lookup_lt_Some. }
  assert (Hlen : length (boundary_tri_index self) ≤ n_tris self).
  { by apply NoDup_below_length; [apply NoDup_boundary_tri_index|]. }
  split_and!; [done | done |].
  intros H0. rewrite H0 in Hlen. destruct (boundary_tri_index self); [done|].
  simpl in Hlen. lia.
Qed.
End MeshEdgesFacts.
